(** * Terra::BitUtil -- bit rotation, masked shifts, most significant bit,
      byte order.

    A shallow embedding of the header-only library: every C++ function is a
    Rocq function on [Z], with the integral promotions, the wrap-around of
    the fixed-width types and the undefined shifts of C++20 written out. *)

From Stdlib Require Import ZArith Lia List Bool.
Import ListNotations.
Local Open Scope Z_scope.

(** ** The fixed-width integer types of <cstdint> *)

Module CInt.

Inductive IntType : Type :=
  | U8 | U16 | U32 | U64
  | I8 | I16 | I32 | I64.

(** [sizeof(T) * CHAR_BIT] *)
Definition bits (T : IntType) : Z :=
  match T with
  | U8 | I8 => 8
  | U16 | I16 => 16
  | U32 | I32 => 32
  | U64 | I64 => 64
  end.

(** [std::is_signed<T>::value] *)
Definition is_signed (T : IntType) : bool :=
  match T with
  | U8 | U16 | U32 | U64 => false
  | I8 | I16 | I32 | I64 => true
  end.

(** [std::numeric_limits<T>::min()] *)
Definition numeric_limits_min (T : IntType) : Z :=
  if is_signed T then - 2 ^ (bits T - 1) else 0.

(** [std::numeric_limits<T>::max()] *)
Definition numeric_limits_max (T : IntType) : Z :=
  if is_signed T then 2 ^ (bits T - 1) - 1 else 2 ^ bits T - 1.

(** The values an object of type [T] can hold. *)
Definition in_range (T : IntType) (z : Z) : Prop :=
  numeric_limits_min T <= z <= numeric_limits_max T.

Definition in_rangeb (T : IntType) (z : Z) : bool :=
  (numeric_limits_min T <=? z) && (z <=? numeric_limits_max T).

(** The value of type [T] whose bits are all 1: [T(~T(0))]. *)
Definition all_ones (T : IntType) : Z :=
  if is_signed T then -1 else 2 ^ bits T - 1.

(** Conversion to [T] ([static_cast<T>], or the implicit conversion of a
    return statement or an assignment): the value modulo [2^bits], read as
    two's complement when [T] is signed. *)
Definition wrap (T : IntType) (z : Z) : Z :=
  if is_signed T
  then (z + 2 ^ (bits T - 1)) mod 2 ^ bits T - 2 ^ (bits T - 1)
  else z mod 2 ^ bits T.

(** Integral promotion: a type narrower than [int] (32 bits) becomes
    [int]; the others are unchanged.  The promotion keeps the value. *)
Definition promote (T : IntType) : IntType :=
  match T with
  | U8 | U16 | I8 | I16 => I32
  | _ => T
  end.

(** [std::size_t] arithmetic (64 bits, unsigned): [a - b]. *)
Definition size_sub (a b : Z) : Z := wrap U64 (a - b).

(** [a << n] on an operand of the (promoted) type [P]: undefined when the
    count is not below the width of [P], otherwise [a * 2^n] modulo
    [2^bits] (C++20). *)
Definition shl (P : IntType) (a n : Z) : option Z :=
  if (0 <=? n) && (n <? bits P) then Some (wrap P (Z.shiftl a n)) else None.

(** [a >> n] on an operand of the (promoted) type [P]: undefined when the
    count is not below the width of [P], otherwise the arithmetic shift. *)
Definition shr (P : IntType) (a n : Z) : option Z :=
  if (0 <=? n) && (n <? bits P) then Some (Z.shiftr a n) else None.

(** The same shifts by a literal count that is below the width. *)
Definition shl_const (P : IntType) (a n : Z) : Z := wrap P (Z.shiftl a n).
Definition shr_const (a n : Z) : Z := Z.shiftr a n.

Definition bind {A B : Type} (o : option A) (f : A -> option B) : option B :=
  match o with
  | Some a => f a
  | None => None
  end.

End CInt.

Import CInt.

Notation "x <- e ;; k" := (bind e (fun x => k))
  (at level 61, e at next level, right associativity).

(** ** bit_rotation.h *)

(** The default arguments of [RotateLeft] and [RotateRight]. *)
Definition default_width (T : IntType) : Z := bits T.
Definition default_mask (T : IntType) : Z := numeric_limits_max T.

(** [return ((value << bits) | ((value & mask) >> (width - bits))) & mask;] *)
Definition RotateLeft (T : IntType) (value bits width mask : Z) : option Z :=
  let P := promote T in
  hi <- shl P value bits ;;
  lo <- shr P (Z.land value mask) (size_sub width bits) ;;
  Some (wrap T (Z.land (Z.lor hi lo) mask)).

(** [return (((value & mask) >> bits) | (value << (width - bits))) & mask;] *)
Definition RotateRight (T : IntType) (value bits width mask : Z) : option Z :=
  let P := promote T in
  lo <- shr P (Z.land value mask) bits ;;
  hi <- shl P value (size_sub width bits) ;;
  Some (wrap T (Z.land (Z.lor lo hi) mask)).

(** The two functions called with the default [width] and [mask]. *)
Definition RotateLeft_default (T : IntType) (value bits : Z) : option Z :=
  RotateLeft T value bits (default_width T) (default_mask T).

Definition RotateRight_default (T : IntType) (value bits : Z) : option Z :=
  RotateRight T value bits (default_width T) (default_mask T).

(** ** bit_shift.h *)

(** [return (value << bits) & mask;] *)
Definition ShiftLeft (T : IntType) (value bits mask : Z) : option Z :=
  let P := promote T in
  s <- shl P value bits ;;
  Some (wrap T (Z.land s mask)).

(** [return ((value & mask) >> bits);] *)
Definition ShiftRight (T : IntType) (value bits mask : Z) : option Z :=
  let P := promote T in
  s <- shr P (Z.land value mask) bits ;;
  Some (wrap T s).

Definition ShiftLeft_default (T : IntType) (value bits : Z) : option Z :=
  ShiftLeft T value bits (default_mask T).

Definition ShiftRight_default (T : IntType) (value bits : Z) : option Z :=
  ShiftRight T value bits (default_mask T).

(** ** significant_bit.h *)

(** One line of the search, on the pair of the locals [(p, v)]:
    [if (v >= T(1) << h) p += h, v >>= h;]
    [T(1) << h] is computed after promotion, [p] is a [std::size_t] and the
    shifted value is converted back to [T] by the assignment. *)
Definition msb_step (T : IntType) (h : Z) (s : Z * Z) : Z * Z :=
  let '(p, v) := s in
  if v >=? shl_const (promote T) 1 h
  then (wrap U64 (p + h), wrap T (shr_const v h))
  else (p, v).

(** [FindMSb(std::uint8_t v)] *)
Definition FindMSb_u8 (v : Z) : Z :=
  let s := (0, v) in
  let s := msb_step U8 4 s in
  let s := msb_step U8 2 s in
  let s := msb_step U8 1 s in
  fst s.

(** [FindMSb(std::uint16_t v)] *)
Definition FindMSb_u16 (v : Z) : Z :=
  let s := (0, v) in
  let s := msb_step U16 8 s in
  let s := msb_step U16 4 s in
  let s := msb_step U16 2 s in
  let s := msb_step U16 1 s in
  fst s.

(** [FindMSb(std::uint32_t v)] *)
Definition FindMSb_u32 (v : Z) : Z :=
  let s := (0, v) in
  let s := msb_step U32 16 s in
  let s := msb_step U32 8 s in
  let s := msb_step U32 4 s in
  let s := msb_step U32 2 s in
  let s := msb_step U32 1 s in
  fst s.

(** [FindMSb(std::uint64_t v)] *)
Definition FindMSb_u64 (v : Z) : Z :=
  let s := (0, v) in
  let s := msb_step U64 32 s in
  let s := msb_step U64 16 s in
  let s := msb_step U64 8 s in
  let s := msb_step U64 4 s in
  let s := msb_step U64 2 s in
  let s := msb_step U64 1 s in
  fst s.

(** [FindMSb(std::int8_t v)]: [~v] is computed on the promoted [int]. *)
Definition FindMSb_i8 (v : Z) : Z :=
  if v >=? 0 then FindMSb_u8 (wrap U8 v) else FindMSb_u8 (wrap U8 (Z.lnot v)).

(** [FindMSb(std::int16_t v)] *)
Definition FindMSb_i16 (v : Z) : Z :=
  if v >=? 0 then FindMSb_u16 (wrap U16 v) else FindMSb_u16 (wrap U16 (Z.lnot v)).

(** [FindMSb(std::int32_t v)] *)
Definition FindMSb_i32 (v : Z) : Z :=
  if v >=? 0 then FindMSb_u32 (wrap U32 v) else FindMSb_u32 (wrap U32 (Z.lnot v)).

(** [FindMSb(std::int64_t v)] *)
Definition FindMSb_i64 (v : Z) : Z :=
  if v >=? 0 then FindMSb_u64 (wrap U64 v) else FindMSb_u64 (wrap U64 (Z.lnot v)).

(** Overload resolution of [FindMSb] on the type of its argument. *)
Definition FindMSb (T : IntType) (v : Z) : Z :=
  match T with
  | U8 => FindMSb_u8 v
  | U16 => FindMSb_u16 v
  | U32 => FindMSb_u32 v
  | U64 => FindMSb_u64 v
  | I8 => FindMSb_i8 v
  | I16 => FindMSb_i16 v
  | I32 => FindMSb_i32 v
  | I64 => FindMSb_i64 v
  end.

(** The unsigned type of the same width, [std::make_unsigned_t<T>]. *)
Definition make_unsigned (T : IntType) : IntType :=
  match T with
  | U8 | I8 => U8
  | U16 | I16 => U16
  | U32 | I32 => U32
  | U64 | I64 => U64
  end.

(** ** byte_order.h and byte_order.cpp *)

(** [enum class EndianClassification : std::uint32_t] *)
Inductive EndianClassification : Type :=
  | Big_Endian
  | PDP_Endian
  | Honeywell_Endian
  | Little_Endian.

(** The value of each enumerator.  An object of the enumeration type is a
    [std::uint32_t] and may hold other values too, so the functions below
    return [Z]. *)
Definition enumerator (e : EndianClassification) : Z :=
  match e with
  | Big_Endian => 0x00010203
  | PDP_Endian => 0x01000302
  | Honeywell_Endian => 0x02030001
  | Little_Endian => 0x03020100
  end.

(** A host is described by the way it lays a 32-bit object out in memory:
    for each of the four offsets, the significance (0 for the least
    significant byte) of the byte stored there. *)
Definition ByteLayout : Type := list Z.

(** The four classical orderings: the 32-bit value [0x0A0B0C0D] is stored
    as [0A 0B 0C 0D] (big endian), [0D 0C 0B 0A] (little endian),
    [0B 0A 0D 0C] (PDP-11) and [0C 0D 0A 0B] (Honeywell 316). *)
Definition layout_of (e : EndianClassification) : ByteLayout :=
  match e with
  | Big_Endian => [3; 2; 1; 0]
  | PDP_Endian => [2; 3; 0; 1]
  | Honeywell_Endian => [1; 0; 3; 2]
  | Little_Endian => [0; 1; 2; 3]
  end.

(** Reading the member [endian] of a union whose member [octets] was
    written: every octet lands at the significance the layout gives to its
    offset. *)
Fixpoint read_octets (layout : ByteLayout) (octets : list Z) : Z :=
  match layout, octets with
  | s :: layout', o :: octets' =>
      Z.lor (Z.shiftl o (8 * s)) (read_octets layout' octets')
  | _, _ => 0
  end.

(** [Observed_Endianness = {{0, 1, 2, 3}}], read through [.endian] *)
Definition Observed_Endianness (host : ByteLayout) : Z :=
  read_octets host [0; 1; 2; 3].

(** [DetermineMachineEndian()] *)
Definition DetermineMachineEndian (host : ByteLayout) : Z :=
  wrap U32 (Observed_Endianness host).

(** [const EndianClassification Machine_Endian = DetermineMachineEndian();] *)
Definition Machine_Endian (host : ByteLayout) : Z :=
  DetermineMachineEndian host.

(** [GetMachineEndian()] *)
Definition GetMachineEndian (host : ByteLayout) : Z := Machine_Endian host.

(** [IsLittleEndian()], [IsBigEndian()] and [IsLittleOrBigEndian()], in the
    form that asks [GetMachineEndian()]; the form that compares
    [std::endian::native] answers the same on big-endian and little-endian
    hosts and does not compile [NetworkByteOrder] on the others. *)
Definition IsLittleEndian (host : ByteLayout) : bool :=
  GetMachineEndian host =? enumerator Little_Endian.

Definition IsBigEndian (host : ByteLayout) : bool :=
  GetMachineEndian host =? enumerator Big_Endian.

Definition IsLittleOrBigEndian (host : ByteLayout) : bool :=
  (GetMachineEndian host =? enumerator Little_Endian) ||
  (GetMachineEndian host =? enumerator Big_Endian).

(** [NetworkByteOrder(std::uint64_t value)] *)
Definition NetworkByteOrder_u64 (host : ByteLayout) (value : Z) : Z :=
  if IsBigEndian host then value
  else
    Z.lor (Z.lor (Z.lor (Z.lor (Z.lor (Z.lor (Z.lor
      (Z.land (shr_const value 56) 0x00000000000000ff)
      (Z.land (shr_const value 40) 0x000000000000ff00))
      (Z.land (shr_const value 24) 0x0000000000ff0000))
      (Z.land (shr_const value 8) 0x00000000ff000000))
      (Z.land (shl_const U64 value 8) 0x000000ff00000000))
      (Z.land (shl_const U64 value 24) 0x0000ff0000000000))
      (Z.land (shl_const U64 value 40) 0x00ff000000000000))
      (Z.land (shl_const U64 value 56) 0xff00000000000000).

(** [NetworkByteOrder(std::uint32_t value)] *)
Definition NetworkByteOrder_u32 (host : ByteLayout) (value : Z) : Z :=
  if IsBigEndian host then value
  else
    Z.lor (Z.lor (Z.lor
      (Z.land (shr_const value 24) 0x000000ff)
      (Z.land (shr_const value 8) 0x0000ff00))
      (Z.land (shl_const U32 value 8) 0x00ff0000))
      (Z.land (shl_const U32 value 24) 0xff000000).

(** [NetworkByteOrder(std::uint16_t value)]: the operand is promoted to
    [int] and the result converted back by the return statement. *)
Definition NetworkByteOrder_u16 (host : ByteLayout) (value : Z) : Z :=
  if IsBigEndian host then value
  else
    wrap U16
      (Z.lor (Z.land (shr_const value 8) 0x00ff)
             (Z.land (shl_const I32 value 8) 0xff00)).

(** Overload resolution of [NetworkByteOrder].  Only the three unsigned
    types below have an overload ([swappable]); the other types get no
    function of their own here and are passed through. *)
Definition NetworkByteOrder (T : IntType) (host : ByteLayout) (value : Z) : Z :=
  match T with
  | U16 => NetworkByteOrder_u16 host value
  | U32 => NetworkByteOrder_u32 host value
  | U64 => NetworkByteOrder_u64 host value
  | _ => value
  end.

(** ** The formulas of the specification, read on unbounded integers *)

Module Formula.

Definition RotateLeft (value bits width mask : Z) : Z :=
  Z.land (Z.lor (Z.shiftl value bits)
                (Z.shiftr (Z.land value mask) (width - bits))) mask.

Definition RotateRight (value bits width mask : Z) : Z :=
  Z.land (Z.lor (Z.shiftr (Z.land value mask) bits)
                (Z.shiftl value (width - bits))) mask.

Definition ShiftLeft (value bits mask : Z) : Z :=
  Z.land (Z.shiftl value bits) mask.

Definition ShiftRight (value bits mask : Z) : Z :=
  Z.shiftr (Z.land value mask) bits.

End Formula.

(** ** Notions the properties are stated with *)

(** Rotation of a [W]-bit window, bit by bit. *)
Definition rotl (W x k : Z) : Z :=
  Z.land (Z.lor (Z.shiftl x k) (Z.shiftr x (W - k))) (Z.ones W).

Definition rotr (W x k : Z) : Z :=
  Z.land (Z.lor (Z.shiftr x k) (Z.shiftl x (W - k))) (Z.ones W).

(** What holds between two lines of the search for the most significant bit
    of [v0]: the value left fits in a window of [B] bits, and the position
    found so far accounts for the rest of the logarithm. *)
Definition msb_inv (T : IntType) (v0 B : Z) (s : Z * Z) : Prop :=
  let '(p, v) := s in
  0 <= v < 2 ^ B /\ 0 <= p /\ p + B <= bits T /\ Z.log2 v0 = p + Z.log2 v.

(** [i] is the 0-based index of the highest bit of [v] that is set. *)
Definition highest_set_bit (v i : Z) : Prop :=
  0 <= i /\ Z.testbit v i = true /\
  forall j, i < j -> Z.testbit v j = false.

(** The object representation of a value of [T], read as an unsigned
    number (two's complement). *)
Definition bit_pattern (T : IntType) (v : Z) : Z := v mod 2 ^ bits T.

(** Every bit of a [W]-bit pattern flipped. *)
Definition complement (W b : Z) : Z := Z.lxor b (Z.ones W).

(** [sizeof(T)] *)
Definition bytes (T : IntType) : Z := bits T / 8.

(** Byte [i] of [x], byte 0 being the least significant. *)
Definition byte_at (x i : Z) : Z := Z.land (Z.shiftr x (8 * i)) 0xff.

(** The bytes of [x] are not all the same. *)
Definition bytes_differ (T : IntType) (x : Z) : Prop :=
  exists i j, 0 <= i < bytes T /\ 0 <= j < bytes T /\ byte_at x i <> byte_at x j.

(** The bytes of [x] do not read the same in both directions. *)
Definition not_palindrome (T : IntType) (x : Z) : Prop :=
  exists i, 0 <= i < bytes T /\ byte_at x i <> byte_at x (bytes T - 1 - i).

(** The octets a host with the given layout stores for a 32-bit value. *)
Definition store_octets (layout : ByteLayout) (value : Z) : list Z :=
  map (byte_at value) layout.

(** The types [NetworkByteOrder] is overloaded on. *)
Definition swappable (T : IntType) : Prop := T = U16 \/ T = U32 \/ T = U64.

Ltac split_ranges :=
  repeat match goal with
         | |- context [ ?a <=? ?b ] =>
             destruct (Z.leb_spec a b); try (exfalso; lia)
         | |- context [ ?a <? ?b ] =>
             destruct (Z.ltb_spec a b); try (exfalso; lia)
         end;
  cbn [andb orb];
  rewrite ?andb_true_r, ?andb_false_r, ?orb_false_r, ?orb_false_l.

(** A byte ordering of a 32-bit object: the four significances 0..3, each
    at one offset. *)
Definition byte_order (h : ByteLayout) : Prop :=
  exists a b c d,
    h = [a; b; c; d] /\
    0 <= a <= 3 /\ 0 <= b <= 3 /\ 0 <= c <= 3 /\ 0 <= d <= 3 /\
    a <> b /\ a <> c /\ a <> d /\ b <> c /\ b <> d /\ c <> d.

(** The octets of a 32-bit value in network byte order, most significant
    first. *)
Definition network_octets (x : Z) : list Z :=
  [byte_at x 3; byte_at x 2; byte_at x 1; byte_at x 0].

(** Equalities between bit expressions: bit by bit, then by ranges of the
    bit index. *)
Ltac bit_specs :=
  repeat first
    [ rewrite Z.land_spec
    | rewrite Z.lor_spec
    | rewrite Z.shiftl_spec by lia
    | rewrite Z.shiftr_spec by lia
    | rewrite Z.testbit_ones by lia
    | rewrite Z.testbit_mod_pow2 by lia
    | rewrite Z.bits_0 ].

Ltac bits_solve :=
  let j := fresh "j" in
  let Hj := fresh "Hj" in
  apply Z.bits_inj'; intros j Hj;
  bit_specs; split_ranges;
  rewrite ?Z.testbit_neg_r by lia;
  cbn [andb orb];
  rewrite ?andb_true_r, ?andb_false_r, ?orb_false_r, ?orb_false_l;
  try reflexivity; try (f_equal; lia).

(** Two applications of a byte swap whose bits are given by [lemma], on a
    value below [2 ^ W] ([above] bounds the bits of such a value). *)
Ltac swap_twice lemma above W :=
  let j := fresh "j" in
  let Hj := fresh "Hj" in
  apply Z.bits_inj'; intros j Hj;
  rewrite lemma by assumption;
  split_ranges;
  try (rewrite lemma by (auto; lia); split_ranges; f_equal; lia);
  symmetry; apply (above W); auto; lia.

(** A byte of a byte-swapped value; [bit_of_byte] gives the bits of
    [byte_at]. *)
Ltac swap_byte lemma bit_of_byte :=
  let b := fresh "b" in
  let Hb := fresh "Hb" in
  apply Z.bits_inj'; intros b Hb;
  rewrite !bit_of_byte by lia;
  destruct (Z.ltb_spec b 8); cbn [andb]; [ | reflexivity ];
  rewrite lemma by (auto; lia);
  split_ranges; f_equal; lia.

(** * Properties *)

(** ** Conversions and promotions *)

Section Conversions.

Variable T : IntType.

Lemma bits_pos : 0 < bits T.
Proof. destruct T; simpl; lia. Qed.

Lemma bits_promote : bits T <= bits (promote T).
Proof. destruct T; simpl; lia. Qed.

Lemma bits_promote_le_64 : bits (promote T) <= 64.
Proof. destruct T; simpl; lia. Qed.

Lemma pow2_bits_split : 2 ^ bits T = 2 * 2 ^ (bits T - 1).
Proof.
  pose proof bits_pos.
  rewrite <- Z.pow_succ_r by lia. f_equal. lia.
Qed.

Lemma wrap_mod (z : Z) : wrap T z mod 2 ^ bits T = z mod 2 ^ bits T.
Proof.
  pose proof bits_pos as Hb.
  assert (Hp : 0 < 2 ^ bits T) by (apply Z.pow_pos_nonneg; lia).
  unfold wrap. destruct (is_signed T).
  - rewrite Zminus_mod, Z.mod_mod by lia.
    rewrite <- Zminus_mod. f_equal. lia.
  - apply Z.mod_mod. lia.
Qed.

Lemma wrap_testbit_low (z j : Z) :
  j < bits T -> Z.testbit (wrap T z) j = Z.testbit z j.
Proof.
  intros Hj. pose proof bits_pos as Hb.
  destruct (Z.ltb_spec j 0) as [Hn | Hn].
  - now rewrite !Z.testbit_neg_r.
  - rewrite <- (Z.mod_pow2_bits_low (wrap T z) (bits T) j) by lia.
    rewrite wrap_mod. apply Z.mod_pow2_bits_low. lia.
Qed.

Lemma wrap_in_range (z : Z) : in_range T (wrap T z).
Proof.
  pose proof bits_pos as Hb. pose proof pow2_bits_split as Hs.
  assert (Hp : 0 < 2 ^ (bits T - 1)) by (apply Z.pow_pos_nonneg; lia).
  unfold in_range, numeric_limits_min, numeric_limits_max, wrap.
  destruct (is_signed T).
  - pose proof (Z.mod_pos_bound (z + 2 ^ (bits T - 1)) (2 ^ bits T)). lia.
  - pose proof (Z.mod_pos_bound z (2 ^ bits T)). lia.
Qed.

Lemma wrap_id (z : Z) : in_range T z -> wrap T z = z.
Proof.
  pose proof bits_pos as Hb. pose proof pow2_bits_split as Hs.
  unfold in_range, numeric_limits_min, numeric_limits_max, wrap.
  destruct (is_signed T); intros Hr.
  - rewrite Z.mod_small by lia. lia.
  - apply Z.mod_small. lia.
Qed.

(** The conversion only looks at the low [bits T] bits. *)
Lemma wrap_ext (u u' : Z) :
  (forall j, 0 <= j < bits T -> Z.testbit u j = Z.testbit u' j) ->
  wrap T u = wrap T u'.
Proof.
  intros Hlow. pose proof bits_pos as Hb.
  assert (Hm : u mod 2 ^ bits T = u' mod 2 ^ bits T).
  { apply Z.bits_inj'. intros j Hj.
    rewrite !Z.testbit_mod_pow2 by lia.
    destruct (Z.ltb_spec j (bits T)); simpl; [ apply Hlow; lia | reflexivity ]. }
  unfold wrap. destruct (is_signed T); [ | exact Hm ].
  f_equal.
  rewrite (Zplus_mod u), (Zplus_mod u'), Hm. reflexivity.
Qed.

Lemma in_range_promote (z : Z) : in_range T z -> in_range (promote T) z.
Proof.
  unfold in_range, numeric_limits_min, numeric_limits_max.
  destruct T; simpl; lia.
Qed.

Lemma in_rangeb_spec (z : Z) : in_rangeb T z = true <-> in_range T z.
Proof.
  unfold in_rangeb, in_range. rewrite andb_true_iff, !Z.leb_le. tauto.
Qed.

End Conversions.

Lemma unsigned_range (T : IntType) (z : Z) :
  is_signed T = false -> (in_range T z <-> 0 <= z < 2 ^ bits T).
Proof.
  unfold in_range, numeric_limits_min, numeric_limits_max.
  intros ->. lia.
Qed.

Lemma unsigned_mask_ones (T : IntType) :
  is_signed T = false -> default_mask T = Z.ones (bits T).
Proof.
  unfold default_mask, numeric_limits_max. intros ->.
  rewrite Z.ones_equiv. lia.
Qed.

Lemma testbit_above (W x j : Z) :
  0 <= x < 2 ^ W -> W <= j -> Z.testbit x j = false.
Proof.
  intros Hx Hj.
  destruct (Z.ltb_spec W 0) as [Hn | Hn].
  - rewrite Z.pow_neg_r in Hx by lia. lia.
  - rewrite <- (Z.mod_small x (2 ^ W)) by lia.
    apply Z.mod_pow2_bits_high. lia.
Qed.

Lemma land_ones_id (W x : Z) : 0 <= x < 2 ^ W -> Z.land x (Z.ones W) = x.
Proof.
  intros Hx.
  destruct (Z.ltb_spec W 0) as [Hn | Hn].
  - rewrite Z.pow_neg_r in Hx by lia. lia.
  - rewrite Z.land_ones by lia. apply Z.mod_small. lia.
Qed.

Lemma size_sub_small (a b : Z) : 0 <= a - b < 2 ^ 64 -> size_sub a b = a - b.
Proof.
  intros H. unfold size_sub. apply wrap_id.
  unfold in_range, numeric_limits_min, numeric_limits_max. simpl. simpl in H. lia.
Qed.

Lemma shl_defined (P : IntType) (a n : Z) :
  0 <= n < bits P -> shl P a n = Some (wrap P (Z.shiftl a n)).
Proof.
  intros H. unfold shl.
  destruct (Z.leb_spec 0 n); destruct (Z.ltb_spec n (bits P)); simpl; auto; lia.
Qed.

Lemma shr_defined (P : IntType) (a n : Z) :
  0 <= n < bits P -> shr P a n = Some (Z.shiftr a n).
Proof.
  intros H. unfold shr.
  destruct (Z.leb_spec 0 n); destruct (Z.ltb_spec n (bits P)); simpl; auto; lia.
Qed.

Lemma land_le_r (a b : Z) : 0 <= b -> 0 <= Z.land a b <= b.
Proof.
  intros Hb. split.
  - apply Z.land_nonneg. now right.
  - pose proof (Z.sub_land_same_l b a) as Hs.
    assert (0 <= Z.land b (Z.lnot a)) by (apply Z.land_nonneg; now left).
    rewrite (Z.land_comm a b). lia.
Qed.

Lemma masked_in_range (T : IntType) (x mask : Z) :
  in_range T mask -> 0 <= mask -> in_range T (Z.land x mask).
Proof.
  intros Hm H0. pose proof (land_le_r x mask H0) as Hl.
  unfold in_range, numeric_limits_min, numeric_limits_max in *.
  destruct (is_signed T); lia.
Qed.

(** ** Rotation: the code against the formulas *)

Section RotationRefinement.

Variable T : IntType.
Variables value n width mask : Z.
Hypothesis Hn : 0 < n < width.
Hypothesis Hwidth : width <= bits (promote T).

Lemma RotateLeft_refines :
  RotateLeft T value n width mask =
  Some (wrap T (Formula.RotateLeft value n width mask)).
Proof.
  pose proof (bits_promote_le_64 T) as H64.
  unfold RotateLeft, Formula.RotateLeft.
  rewrite shl_defined by lia.
  rewrite size_sub_small by (simpl; lia).
  rewrite shr_defined by lia.
  simpl. f_equal. apply wrap_ext. intros j Hj.
  pose proof (bits_promote T).
  rewrite !Z.land_spec, !Z.lor_spec, wrap_testbit_low by lia.
  reflexivity.
Qed.

Lemma RotateRight_refines :
  RotateRight T value n width mask =
  Some (wrap T (Formula.RotateRight value n width mask)).
Proof.
  pose proof (bits_promote_le_64 T) as H64.
  unfold RotateRight, Formula.RotateRight.
  rewrite shr_defined by lia.
  rewrite size_sub_small by (simpl; lia).
  rewrite shl_defined by lia.
  simpl. f_equal. apply wrap_ext. intros j Hj.
  pose proof (bits_promote T).
  rewrite !Z.land_spec, !Z.lor_spec, wrap_testbit_low by lia.
  reflexivity.
Qed.

(** With a mask that is a non-negative value of [T] nothing is lost in the
    final conversion. *)
Lemma RotateLeft_exact :
  in_range T mask -> 0 <= mask ->
  RotateLeft T value n width mask =
  Some (Formula.RotateLeft value n width mask).
Proof.
  intros Hm H0. rewrite RotateLeft_refines. f_equal.
  apply wrap_id. now apply masked_in_range.
Qed.

Lemma RotateRight_exact :
  in_range T mask -> 0 <= mask ->
  RotateRight T value n width mask =
  Some (Formula.RotateRight value n width mask).
Proof.
  intros Hm H0. rewrite RotateRight_refines. f_equal.
  apply wrap_id. now apply masked_in_range.
Qed.

End RotationRefinement.

(** ** Rotation of the unsigned types with the default width and mask *)

Section UnsignedRotation.

Variable T : IntType.
Hypothesis Hunsigned : is_signed T = false.
Variables x k : Z.
Hypothesis Hx : in_range T x.
Hypothesis Hk : 0 < k < bits T.

Lemma default_mask_in_range : in_range T (default_mask T) /\ 0 <= default_mask T.
Proof.
  pose proof (bits_pos T).
  assert (0 < 2 ^ bits T) by (apply Z.pow_pos_nonneg; lia).
  unfold in_range, default_mask, numeric_limits_min, numeric_limits_max.
  rewrite Hunsigned. lia.
Qed.

Lemma RotateLeft_default_unsigned :
  RotateLeft_default T x k = Some (rotl (bits T) x k).
Proof.
  pose proof (bits_promote T). destruct default_mask_in_range.
  unfold RotateLeft_default, default_width.
  rewrite RotateLeft_exact by (auto; lia).
  unfold Formula.RotateLeft, rotl.
  rewrite unsigned_mask_ones by assumption.
  rewrite (land_ones_id (bits T) x) by (now apply unsigned_range).
  reflexivity.
Qed.

Lemma RotateRight_default_unsigned :
  RotateRight_default T x k = Some (rotr (bits T) x k).
Proof.
  pose proof (bits_promote T). destruct default_mask_in_range.
  unfold RotateRight_default, default_width.
  rewrite RotateRight_exact by (auto; lia).
  unfold Formula.RotateRight, rotr.
  rewrite unsigned_mask_ones by assumption.
  rewrite (land_ones_id (bits T) x) by (now apply unsigned_range).
  reflexivity.
Qed.

End UnsignedRotation.

Lemma rot_in_range (T : IntType) (y : Z) :
  is_signed T = false -> in_range T (Z.land y (Z.ones (bits T))).
Proof.
  intros Hu. pose proof (bits_pos T).
  apply unsigned_range; auto.
  rewrite Z.land_ones by lia. apply Z.mod_pos_bound.
  apply Z.pow_pos_nonneg; lia.
Qed.

Lemma rot_window (W y : Z) : 0 < W -> 0 <= Z.land y (Z.ones W) < 2 ^ W.
Proof.
  intros HW. rewrite Z.land_ones by lia.
  apply Z.mod_pos_bound. apply Z.pow_pos_nonneg; lia.
Qed.

(** Bit [j] of the left rotation is bit [j - k] of the operand, counted
    modulo the window. *)
Lemma rotl_spec (W x k j : Z) :
  0 <= x < 2 ^ W -> 0 < k < W -> 0 <= j ->
  Z.testbit (rotl W x k) j =
  if j <? W then Z.testbit x (if j <? k then j + W - k else j - k) else false.
Proof.
  intros Hx Hk Hj. unfold rotl.
  rewrite Z.land_spec, Z.lor_spec, Z.shiftl_spec, Z.shiftr_spec by lia.
  rewrite Z.testbit_ones_nonneg by lia.
  destruct (Z.ltb_spec j W) as [HjW | HjW]; [ | apply andb_false_r ].
  rewrite andb_true_r.
  destruct (Z.ltb_spec j k) as [Hjk | Hjk].
  - rewrite (Z.testbit_neg_r x (j - k)) by lia. simpl.
    f_equal. lia.
  - rewrite (testbit_above W x (j + (W - k))) by (auto; lia).
    apply orb_false_r.
Qed.

(** Bit [j] of the right rotation is bit [j + k] of the operand, counted
    modulo the window. *)
Lemma rotr_spec (W x k j : Z) :
  0 <= x < 2 ^ W -> 0 < k < W -> 0 <= j ->
  Z.testbit (rotr W x k) j =
  if j <? W then Z.testbit x (if j + k <? W then j + k else j + k - W) else false.
Proof.
  intros Hx Hk Hj. unfold rotr.
  rewrite Z.land_spec, Z.lor_spec, Z.shiftl_spec, Z.shiftr_spec by lia.
  rewrite Z.testbit_ones_nonneg by lia.
  destruct (Z.ltb_spec j W) as [HjW | HjW]; [ | apply andb_false_r ].
  rewrite andb_true_r.
  destruct (Z.ltb_spec (j + k) W) as [Hjk | Hjk].
  - rewrite (Z.testbit_neg_r x (j - (W - k))) by lia.
    apply orb_false_r.
  - rewrite (testbit_above W x (j + k)) by (auto; lia). simpl.
    f_equal. lia.
Qed.

Lemma rotl_rotr (W x k : Z) :
  0 <= x < 2 ^ W -> 0 < k < W -> rotl W (rotr W x k) k = x.
Proof.
  intros Hx Hk. apply Z.bits_inj'. intros j Hj.
  rewrite rotl_spec by (auto; apply rot_window; lia).
  destruct (Z.ltb_spec j W) as [HjW | HjW].
  - destruct (Z.ltb_spec j k) as [Hjk | Hjk];
      rewrite rotr_spec by (auto; lia).
    + destruct (Z.ltb_spec (j + W - k) W); [ | lia ].
      destruct (Z.ltb_spec (j + W - k + k) W); [ lia | ].
      f_equal. lia.
    + destruct (Z.ltb_spec (j - k) W); [ | lia ].
      destruct (Z.ltb_spec (j - k + k) W); [ | lia ].
      f_equal. lia.
  - symmetry. now apply (testbit_above W).
Qed.

Lemma rotr_rotl (W x k : Z) :
  0 <= x < 2 ^ W -> 0 < k < W -> rotr W (rotl W x k) k = x.
Proof.
  intros Hx Hk. apply Z.bits_inj'. intros j Hj.
  rewrite rotr_spec by (auto; apply rot_window; lia).
  destruct (Z.ltb_spec j W) as [HjW | HjW].
  - destruct (Z.ltb_spec (j + k) W) as [Hjk | Hjk];
      rewrite rotl_spec by (auto; lia).
    + destruct (Z.ltb_spec (j + k) W); [ | lia ].
      destruct (Z.ltb_spec (j + k) k); [ lia | ].
      f_equal. lia.
    + destruct (Z.ltb_spec (j + k - W) W); [ | lia ].
      destruct (Z.ltb_spec (j + k - W) k); [ | lia ].
      f_equal. lia.
  - symmetry. now apply (testbit_above W).
Qed.

Lemma rotl_as_rotr (W x k : Z) :
  0 < k < W -> rotl W x k = rotr W x (W - k).
Proof.
  intros Hk. unfold rotl, rotr.
  replace (W - (W - k)) with k by lia.
  now rewrite Z.lor_comm.
Qed.

(** ** The search for the most significant bit *)

Section MsbSearch.

Variable T : IntType.
Hypothesis Hunsigned : is_signed T = false.

(** The original argument [v0]. *)
Variable v0 : Z.

Lemma msb_threshold (h : Z) :
  0 < h -> 2 * h <= bits T -> shl_const (promote T) 1 h = 2 ^ h.
Proof.
  intros Hh H2h. unfold shl_const.
  rewrite Z.shiftl_1_l. apply wrap_id.
  assert (Hle : 2 ^ h <= 2 ^ (bits T / 2)).
  { apply Z.pow_le_mono_r; [ lia | ]. apply Z.div_le_lower_bound; lia. }
  assert (0 < 2 ^ h) by (apply Z.pow_pos_nonneg; lia).
  unfold in_range, numeric_limits_min, numeric_limits_max.
  destruct T; try discriminate; simpl in *; lia.
Qed.

Lemma msb_step_inv (h : Z) (s : Z * Z) :
  0 < h -> msb_inv T v0 (2 * h) s -> msb_inv T v0 h (msb_step T h s).
Proof.
  intros Hh. destruct s as [p v]. unfold msb_inv, msb_step.
  intros (Hv & Hp & HB & Hlog).
  rewrite msb_threshold by lia.
  assert (Hpow : 0 < 2 ^ h) by (apply Z.pow_pos_nonneg; lia).
  assert (Hsq : 2 ^ (2 * h) = 2 ^ h * 2 ^ h).
  { rewrite <- Z.pow_add_r by lia. f_equal. lia. }
  rewrite Z.geb_leb.
  destruct (Z.leb_spec (2 ^ h) v) as [Hge | Hlt].
  - assert (Hq : 0 <= Z.shiftr v h < 2 ^ h).
    { rewrite Z.shiftr_div_pow2 by lia. split.
      - apply Z.div_pos; lia.
      - apply Z.div_lt_upper_bound; lia. }
    assert (Hwide : 2 ^ h <= 2 ^ bits T) by (apply Z.pow_le_mono_r; lia).
    unfold shr_const.
    rewrite (wrap_id T) by (apply unsigned_range; auto; lia).
    rewrite (wrap_id U64)
      by (pose proof (bits_promote_le_64 T); pose proof (bits_promote T);
          apply (unsigned_range U64); [ reflexivity | ];
          change (bits U64) with 64; lia).
    repeat split; try lia.
    rewrite Hlog, Z.log2_shiftr by lia.
    assert (h <= Z.log2 v) by (apply Z.log2_le_pow2; lia).
    lia.
  - repeat split; lia.
Qed.

Lemma msb_inv_final (s : Z * Z) :
  msb_inv T v0 1 s -> fst s = Z.log2 v0 /\ 0 <= fst s <= bits T - 1.
Proof.
  destruct s as [p v]. unfold msb_inv. simpl fst.
  intros (Hv & Hp & HB & Hlog).
  assert (Hz : Z.log2 v = 0).
  { assert (v = 0 \/ v = 1) as [-> | ->] by lia; reflexivity. }
  lia.
Qed.

Lemma msb_inv_init : in_range T v0 -> msb_inv T v0 (bits T) (0, v0).
Proof.
  intros Hr. apply unsigned_range in Hr; auto.
  unfold msb_inv. repeat split; lia.
Qed.

End MsbSearch.

Lemma FindMSb_unsigned (T : IntType) (v : Z) :
  is_signed T = false -> in_range T v ->
  FindMSb T v = Z.log2 v /\ 0 <= FindMSb T v <= bits T - 1.
Proof.
  intros Hu Hr. pose proof (msb_inv_init T Hu v Hr) as Hinit.
  destruct T; try discriminate; simpl bits in Hinit;
    unfold FindMSb, FindMSb_u8, FindMSb_u16, FindMSb_u32, FindMSb_u64;
    cbv zeta;
    match goal with
    | |- context [msb_step ?U _ _] => apply (msb_inv_final U v)
    end;
    repeat (apply msb_step_inv; [ assumption | lia | ]);
    exact Hinit.
Qed.

(** ** Byte order *)

Lemma testbit_byte_mask (i j : Z) :
  0 <= i -> 0 <= j ->
  Z.testbit (Z.shiftl 255 (8 * i)) j = (8 * i <=? j) && (j <? 8 * i + 8).
Proof.
  intros Hi Hj. rewrite Z.shiftl_spec by lia.
  change 255 with (Z.ones 8).
  destruct (Z.leb_spec (8 * i) j) as [Hle | Hlt]; cbn [andb].
  - rewrite Z.testbit_ones_nonneg by lia.
    destruct (Z.ltb_spec (j - 8 * i) 8), (Z.ltb_spec j (8 * i + 8));
      try reflexivity; exfalso; lia.
  - apply Z.testbit_neg_r. lia.
Qed.

Lemma swap_u32_testbit (h : ByteLayout) (x j : Z) :
  IsBigEndian h = false -> 0 <= j ->
  Z.testbit (NetworkByteOrder_u32 h x) j =
  if j <? 8 then Z.testbit x (j + 24)
  else if j <? 16 then Z.testbit x (j + 8)
  else if j <? 24 then Z.testbit x (j - 8)
  else if j <? 32 then Z.testbit x (j - 24)
  else false.
Proof.
  intros Hh Hj. unfold NetworkByteOrder_u32, shr_const, shl_const. rewrite Hh.
  change 0x000000ff with (Z.shiftl 255 (8 * 0)).
  change 0x0000ff00 with (Z.shiftl 255 (8 * 1)).
  change 0x00ff0000 with (Z.shiftl 255 (8 * 2)).
  change 0xff000000 with (Z.shiftl 255 (8 * 3)).
  rewrite !Z.lor_spec, !Z.land_spec, !testbit_byte_mask by lia.
  destruct (Z.ltb_spec j 32) as [Hlt | Hge].
  - rewrite !(wrap_testbit_low U32) by (simpl; lia).
    rewrite !Z.shiftr_spec, !Z.shiftl_spec by lia.
    split_ranges; reflexivity.
  - split_ranges; reflexivity.
Qed.

Lemma wrap_unsigned_testbit (T : IntType) (z j : Z) :
  is_signed T = false -> 0 <= j ->
  Z.testbit (wrap T z) j = (j <? bits T) && Z.testbit z j.
Proof.
  intros Hu Hj. pose proof (bits_pos T). unfold wrap. rewrite Hu.
  apply Z.testbit_mod_pow2. lia.
Qed.

Lemma swap_u16_testbit (h : ByteLayout) (x j : Z) :
  IsBigEndian h = false -> 0 <= j ->
  Z.testbit (NetworkByteOrder_u16 h x) j =
  if j <? 8 then Z.testbit x (j + 8)
  else if j <? 16 then Z.testbit x (j - 8)
  else false.
Proof.
  intros Hh Hj. unfold NetworkByteOrder_u16, shr_const, shl_const. rewrite Hh.
  change 0x00ff with (Z.shiftl 255 (8 * 0)).
  change 0xff00 with (Z.shiftl 255 (8 * 1)).
  rewrite wrap_unsigned_testbit by (auto; lia). change (bits U16) with 16.
  rewrite !Z.lor_spec, !Z.land_spec, !testbit_byte_mask by lia.
  destruct (Z.ltb_spec j 32) as [Hlt | Hge].
  - rewrite !(wrap_testbit_low I32) by (simpl; lia).
    rewrite !Z.shiftr_spec, !Z.shiftl_spec by lia.
    split_ranges; reflexivity.
  - split_ranges; reflexivity.
Qed.

Lemma swap_u64_testbit (h : ByteLayout) (x j : Z) :
  IsBigEndian h = false -> 0 <= j ->
  Z.testbit (NetworkByteOrder_u64 h x) j =
  if j <? 8 then Z.testbit x (j + 56)
  else if j <? 16 then Z.testbit x (j + 40)
  else if j <? 24 then Z.testbit x (j + 24)
  else if j <? 32 then Z.testbit x (j + 8)
  else if j <? 40 then Z.testbit x (j - 8)
  else if j <? 48 then Z.testbit x (j - 24)
  else if j <? 56 then Z.testbit x (j - 40)
  else if j <? 64 then Z.testbit x (j - 56)
  else false.
Proof.
  intros Hh Hj. unfold NetworkByteOrder_u64, shr_const, shl_const. rewrite Hh.
  change 0x00000000000000ff with (Z.shiftl 255 (8 * 0)).
  change 0x000000000000ff00 with (Z.shiftl 255 (8 * 1)).
  change 0x0000000000ff0000 with (Z.shiftl 255 (8 * 2)).
  change 0x00000000ff000000 with (Z.shiftl 255 (8 * 3)).
  change 0x000000ff00000000 with (Z.shiftl 255 (8 * 4)).
  change 0x0000ff0000000000 with (Z.shiftl 255 (8 * 5)).
  change 0x00ff000000000000 with (Z.shiftl 255 (8 * 6)).
  change 0xff00000000000000 with (Z.shiftl 255 (8 * 7)).
  rewrite !Z.lor_spec, !Z.land_spec, !testbit_byte_mask by lia.
  destruct (Z.ltb_spec j 64) as [Hlt | Hge].
  - rewrite !(wrap_testbit_low U64) by (simpl; lia).
    rewrite !Z.shiftr_spec, !Z.shiftl_spec by lia.
    split_ranges; reflexivity.
  - split_ranges; reflexivity.
Qed.

Lemma swap_swap_u16 (h : ByteLayout) (x : Z) :
  IsBigEndian h = false -> 0 <= x < 2 ^ 16 ->
  NetworkByteOrder_u16 h (NetworkByteOrder_u16 h x) = x.
Proof. intros Hh Hx. swap_twice swap_u16_testbit testbit_above 16. Qed.

Lemma swap_swap_u32 (h : ByteLayout) (x : Z) :
  IsBigEndian h = false -> 0 <= x < 2 ^ 32 ->
  NetworkByteOrder_u32 h (NetworkByteOrder_u32 h x) = x.
Proof. intros Hh Hx. swap_twice swap_u32_testbit testbit_above 32. Qed.

Lemma swap_swap_u64 (h : ByteLayout) (x : Z) :
  IsBigEndian h = false -> 0 <= x < 2 ^ 64 ->
  NetworkByteOrder_u64 h (NetworkByteOrder_u64 h x) = x.
Proof. intros Hh Hx. swap_twice swap_u64_testbit testbit_above 64. Qed.

Lemma byte_at_testbit (x i b : Z) :
  0 <= i -> 0 <= b ->
  Z.testbit (byte_at x i) b = (b <? 8) && Z.testbit x (b + 8 * i).
Proof.
  intros Hi Hb. unfold byte_at. change 0xff with (Z.ones 8).
  rewrite Z.land_spec, Z.shiftr_spec, Z.testbit_ones_nonneg by lia.
  apply andb_comm.
Qed.

(** The byte swap mirrors the bytes. *)
Lemma swap_u16_byte (h : ByteLayout) (x i : Z) :
  IsBigEndian h = false -> 0 <= i < 2 ->
  byte_at (NetworkByteOrder_u16 h x) i = byte_at x (1 - i).
Proof. intros Hh Hi. swap_byte swap_u16_testbit byte_at_testbit. Qed.

Lemma swap_u32_byte (h : ByteLayout) (x i : Z) :
  IsBigEndian h = false -> 0 <= i < 4 ->
  byte_at (NetworkByteOrder_u32 h x) i = byte_at x (3 - i).
Proof. intros Hh Hi. swap_byte swap_u32_testbit byte_at_testbit. Qed.

Lemma swap_u64_byte (h : ByteLayout) (x i : Z) :
  IsBigEndian h = false -> 0 <= i < 8 ->
  byte_at (NetworkByteOrder_u64 h x) i = byte_at x (7 - i).
Proof. intros Hh Hi. swap_byte swap_u64_testbit byte_at_testbit. Qed.

Lemma NetworkByteOrder_byte (T : IntType) (h : ByteLayout) (x i : Z) :
  swappable T -> IsBigEndian h = false -> 0 <= i < bytes T ->
  byte_at (NetworkByteOrder T h x) i = byte_at x (bytes T - 1 - i).
Proof.
  intros [-> | [-> | ->]] Hh Hi; simpl.
  - now apply swap_u16_byte.
  - now apply swap_u32_byte.
  - now apply swap_u64_byte.
Qed.

Lemma little_not_big (h : ByteLayout) :
  IsLittleEndian h = true -> IsBigEndian h = false.
Proof.
  unfold IsLittleEndian, IsBigEndian. intros Hl.
  apply Z.eqb_eq in Hl. rewrite Hl. reflexivity.
Qed.

(** On the four classical hosts the two tests recognise their ordering. *)
Lemma classical_hosts (e : EndianClassification) :
  (IsBigEndian (layout_of e) = true <-> e = Big_Endian) /\
  (IsLittleEndian (layout_of e) = true <-> e = Little_Endian) /\
  (IsLittleOrBigEndian (layout_of e) = true <->
   e = Big_Endian \/ e = Little_Endian).
Proof.
  destruct e; vm_compute; repeat split; intros; auto;
    try discriminate; try tauto;
    match goal with
    | H : _ \/ _ |- _ => destruct H; discriminate
    end.
Qed.

(** ** The signed overloads of [FindMSb] *)

Lemma make_unsigned_props (T : IntType) :
  is_signed (make_unsigned T) = false /\ bits (make_unsigned T) = bits T.
Proof. destruct T; simpl; auto. Qed.

Lemma signed_range (T : IntType) (z : Z) :
  is_signed T = true ->
  (in_range T z <-> - 2 ^ (bits T - 1) <= z < 2 ^ (bits T - 1)).
Proof.
  unfold in_range, numeric_limits_min, numeric_limits_max.
  intros ->. lia.
Qed.

Lemma nonneg_signed_as_unsigned (T : IntType) (w : Z) :
  is_signed T = true -> in_range T w -> 0 <= w ->
  in_range (make_unsigned T) w.
Proof.
  intros Hs Hr Hw. destruct (make_unsigned_props T) as [Hu Hb].
  apply signed_range in Hr; auto. apply unsigned_range; auto.
  rewrite Hb, (pow2_bits_split T).
  lia.
Qed.

Lemma FindMSb_signed_unfold (T : IntType) (v : Z) :
  is_signed T = true ->
  FindMSb T v =
  if v >=? 0 then FindMSb (make_unsigned T) (wrap (make_unsigned T) v)
  else FindMSb (make_unsigned T) (wrap (make_unsigned T) (Z.lnot v)).
Proof. destruct T; try discriminate; reflexivity. Qed.

Lemma lnot_in_range (T : IntType) (v : Z) :
  is_signed T = true -> in_range T v -> in_range T (Z.lnot v).
Proof.
  intros Hs Hr. apply signed_range in Hr; auto. apply signed_range; auto.
  unfold Z.lnot. lia.
Qed.

Lemma FindMSb_signed (T : IntType) (v : Z) :
  is_signed T = true -> in_range T v ->
  FindMSb T v = Z.log2 (if v >=? 0 then v else Z.lnot v).
Proof.
  intros Hs Hr. destruct (make_unsigned_props T) as [Hu Hb].
  rewrite FindMSb_signed_unfold by assumption.
  rewrite Z.geb_leb.
  destruct (Z.leb_spec 0 v) as [Hv | Hv].
  - pose proof (nonneg_signed_as_unsigned T v Hs Hr Hv) as Hr'.
    rewrite wrap_id by assumption.
    now apply FindMSb_unsigned.
  - assert (Hn : 0 <= Z.lnot v) by (unfold Z.lnot; lia).
    pose proof (nonneg_signed_as_unsigned T _ Hs (lnot_in_range T v Hs Hr) Hn)
      as Hr'.
    rewrite wrap_id by assumption.
    now apply FindMSb_unsigned.
Qed.

Lemma complement_bit_pattern (T : IntType) (v : Z) :
  complement (bits T) (bit_pattern T v) = bit_pattern T (Z.lnot v).
Proof.
  pose proof (bits_pos T). unfold complement, bit_pattern.
  apply Z.bits_inj'. intros j Hj.
  rewrite Z.lxor_spec, !Z.testbit_mod_pow2, Z.testbit_ones_nonneg by lia.
  destruct (Z.ltb_spec j (bits T)); cbn [andb].
  - rewrite Z.lnot_spec by lia. apply xorb_true_r.
  - reflexivity.
Qed.

Lemma bit_pattern_wrap (T : IntType) (v : Z) :
  bit_pattern T v = wrap (make_unsigned T) v.
Proof.
  destruct (make_unsigned_props T) as [Hu Hb].
  unfold bit_pattern, wrap. now rewrite Hu, Hb.
Qed.

(** ** Masked shifts: the code against the formulas *)

Section ShiftRefinement.

Variable T : IntType.
Variables value n mask : Z.
Hypothesis Hn : 0 <= n < bits (promote T).

Lemma ShiftLeft_refines :
  ShiftLeft T value n mask = Some (wrap T (Formula.ShiftLeft value n mask)).
Proof.
  unfold ShiftLeft, Formula.ShiftLeft.
  rewrite shl_defined by lia.
  simpl. f_equal. apply wrap_ext. intros j Hj.
  pose proof (bits_promote T).
  rewrite !Z.land_spec, wrap_testbit_low by lia.
  reflexivity.
Qed.

Lemma ShiftRight_refines :
  ShiftRight T value n mask = Some (wrap T (Formula.ShiftRight value n mask)).
Proof.
  unfold ShiftRight, Formula.ShiftRight.
  rewrite shr_defined by lia.
  reflexivity.
Qed.

Lemma ShiftLeft_exact :
  in_range T mask -> 0 <= mask ->
  ShiftLeft T value n mask = Some (Formula.ShiftLeft value n mask).
Proof.
  intros Hm H0. rewrite ShiftLeft_refines. f_equal.
  apply wrap_id. now apply masked_in_range.
Qed.

Lemma ShiftRight_exact :
  in_range T mask -> 0 <= mask ->
  ShiftRight T value n mask = Some (Formula.ShiftRight value n mask).
Proof.
  intros Hm H0. rewrite ShiftRight_refines. f_equal.
  apply wrap_id. unfold Formula.ShiftRight.
  pose proof (land_le_r value mask H0) as Hl.
  assert (Hs : 0 <= Z.shiftr (Z.land value mask) n <= Z.land value mask).
  { rewrite Z.shiftr_div_pow2 by lia.
    assert (0 < 2 ^ n) by (apply Z.pow_pos_nonneg; lia).
    split.
    - apply Z.div_pos; lia.
    - apply Z.div_le_upper_bound; nia. }
  unfold in_range, numeric_limits_min, numeric_limits_max in *.
  destruct (is_signed T); lia.
Qed.

End ShiftRefinement.

(** * The claims *)

(** C1.  [RotateLeft] and [RotateRight] compute the two formulas for every
    integral type, and the width defaults to the full width of the type
    (lemmas [RotateLeft_refines] and [RotateRight_refines]); but the default
    mask, [std::numeric_limits<T>::max()], is all-ones for the unsigned types
    only.  For [std::int32_t] and [std::int8_t] it leaves the sign bit out:
    rotating [0x40000000] left by one bit with the defaults loses the only set
    bit, where the all-ones mask keeps it. *)
Theorem RotateLeft_signed_default_mask :
  default_width I32 = 32 /\
  default_mask I32 = 0x7FFFFFFF /\
  all_ones I32 = -1 /\
  RotateLeft_default I32 0x40000000 1 = Some 0 /\
  RotateLeft I32 0x40000000 1 (default_width I32) (all_ones I32)
    = Some (- 0x80000000) /\
  RotateRight_default I32 1 1 = Some 0 /\
  RotateRight I32 1 1 (default_width I32) (all_ones I32)
    = Some (- 0x80000000) /\
  RotateLeft_default I8 0x40 1 = Some 0 /\
  RotateLeft I8 0x40 1 (default_width I8) (all_ones I8) = Some (- 0x80) /\
  (forall T, is_signed T = false -> default_mask T = all_ones T) /\
  (forall T, is_signed T = true -> default_mask T <> all_ones T).
Proof.
  repeat split; try reflexivity.
  - intros T Hu. unfold default_mask, numeric_limits_max, all_ones.
    now rewrite Hu.
  - intros T Hs. unfold default_mask, numeric_limits_max, all_ones.
    rewrite Hs. pose proof (bits_pos T).
    assert (0 < 2 ^ (bits T - 1)) by (apply Z.pow_pos_nonneg; lia).
    lia.
Qed.

(** C2.  For an unsigned type of 8, 16, 32 or 64 bits, a value [x] of the
    type and a count [0 < k < W], rotating right and then left by [k] with
    the default width and mask gives [x] back, and so does rotating left
    and then right. *)
Theorem rotate_inverse (T : IntType) (x k : Z) :
  is_signed T = false -> in_range T x -> 0 < k < bits T ->
  (y <- RotateRight_default T x k ;; RotateLeft_default T y k) = Some x /\
  (y <- RotateLeft_default T x k ;; RotateRight_default T y k) = Some x.
Proof.
  intros Hu Hx Hk.
  assert (Hx' : 0 <= x < 2 ^ bits T) by (now apply unsigned_range).
  assert (Hr : in_range T (rotr (bits T) x k)) by (now apply rot_in_range).
  assert (Hl : in_range T (rotl (bits T) x k)) by (now apply rot_in_range).
  split.
  - rewrite RotateRight_default_unsigned by assumption. cbn [bind].
    rewrite RotateLeft_default_unsigned by assumption.
    now rewrite rotl_rotr.
  - rewrite RotateLeft_default_unsigned by assumption. cbn [bind].
    rewrite RotateRight_default_unsigned by assumption.
    now rewrite rotr_rotl.
Qed.

Lemma rotate_inverse_witness :
  is_signed U32 = false /\ in_range U32 0x000FFFF0 /\ 0 < 4 < bits U32 /\
  (y <- RotateRight_default U32 0x000FFFF0 4 ;; RotateLeft_default U32 y 4)
    = Some 0x000FFFF0 /\
  (y <- RotateLeft_default U32 0x000FFFF0 4 ;; RotateRight_default U32 y 4)
    = Some 0x000FFFF0.
Proof.
  assert (Hr : in_range U32 0x000FFFF0)
    by (unfold in_range, numeric_limits_min, numeric_limits_max; simpl; lia).
  assert (Hk : 0 < 4 < bits U32) by (simpl; lia).
  split; [ reflexivity | ]. split; [ exact Hr | ]. split; [ exact Hk | ].
  exact (rotate_inverse U32 0x000FFFF0 4 eq_refl Hr Hk).
Defined.

(** C3.  For an unsigned type of [W] = 8, 16, 32 or 64 bits, a value [x] of
    the type and a count [0 < k < W], rotating left by [k] is rotating right
    by [W - k], with the default width and mask; both calls are defined. *)
Theorem rotate_left_as_right (T : IntType) (x k : Z) :
  is_signed T = false -> in_range T x -> 0 < k < bits T ->
  exists y,
    RotateLeft_default T x k = Some y /\
    RotateRight_default T x (bits T - k) = Some y.
Proof.
  intros Hu Hx Hk. exists (rotl (bits T) x k).
  rewrite RotateLeft_default_unsigned, RotateRight_default_unsigned
    by (auto; lia).
  rewrite rotl_as_rotr by assumption.
  split; reflexivity.
Qed.

Lemma rotate_left_as_right_witness :
  is_signed U8 = false /\ in_range U8 131 /\ 0 < 2 < bits U8 /\
  exists y,
    RotateLeft_default U8 131 2 = Some y /\
    RotateRight_default U8 131 (bits U8 - 2) = Some y.
Proof.
  assert (Hr : in_range U8 131)
    by (unfold in_range, numeric_limits_min, numeric_limits_max; simpl; lia).
  assert (Hk : 0 < 2 < bits U8) by (simpl; lia).
  split; [ reflexivity | ]. split; [ exact Hr | ]. split; [ exact Hk | ].
  exact (rotate_left_as_right U8 131 2 eq_refl Hr Hk).
Defined.

(** C4.  For an unsigned [v] of 8, 16, 32 or 64 bits, [FindMSb(v)] is the
    0-based index of the highest set bit of [v] when [v] is not zero, and
    [FindMSb(0) == 0]; in particular [FindMSb(1) == 0], [FindMSb(2) == 1] and
    [FindMSb(2^n) == n] for [0 <= n < width]. *)
Theorem FindMSb_unsigned_highest_bit (T : IntType) (v : Z) :
  is_signed T = false -> in_range T v ->
  (v <> 0 -> highest_set_bit v (FindMSb T v)) /\
  FindMSb T 0 = 0 /\
  FindMSb T 1 = 0 /\
  FindMSb T 2 = 1 /\
  (forall n, 0 <= n < bits T -> FindMSb T (2 ^ n) = n).
Proof.
  intros Hu Hr. split; [ | split; [ | split; [ | split ] ] ].
  - intros Hv. destruct (FindMSb_unsigned T v Hu Hr) as [-> _].
    apply unsigned_range in Hr; auto.
    unfold highest_set_bit. split; [ apply Z.log2_nonneg | ]. split.
    + apply Z.bit_log2. lia.
    + intros j Hj. apply Z.bits_above_log2; lia.
  - destruct T; try discriminate; reflexivity.
  - destruct T; try discriminate; reflexivity.
  - destruct T; try discriminate; reflexivity.
  - intros n Hn.
    assert (Hp : in_range T (2 ^ n)).
    { apply unsigned_range; auto. split.
      - apply Z.pow_nonneg. lia.
      - apply Z.pow_lt_mono_r; lia. }
    destruct (FindMSb_unsigned T (2 ^ n) Hu Hp) as [-> _].
    apply Z.log2_pow2. lia.
Qed.

Lemma FindMSb_unsigned_highest_bit_witness :
  is_signed U32 = false /\ in_range U32 0x80000000 /\
  (0x80000000 <> 0 -> highest_set_bit 0x80000000 (FindMSb U32 0x80000000)) /\
  FindMSb U32 0 = 0 /\
  FindMSb U32 1 = 0 /\
  FindMSb U32 2 = 1 /\
  (forall n, 0 <= n < bits U32 -> FindMSb U32 (2 ^ n) = n).
Proof.
  assert (Hr : in_range U32 0x80000000)
    by (unfold in_range, numeric_limits_min, numeric_limits_max; simpl; lia).
  split; [ reflexivity | ]. split; [ exact Hr | ].
  exact (FindMSb_unsigned_highest_bit U32 0x80000000 eq_refl Hr).
Defined.

(** C5.  For a signed [v] of 8, 16, 32 or 64 bits: when [v >= 0],
    [FindMSb(v)] is the unsigned [FindMSb] of the bit pattern of [v]; when
    [v < 0], it is the unsigned [FindMSb] of the complemented bit pattern,
    which is the bit pattern of [~v].  In particular [FindMSb(-1) == 0], and
    [FindMSb(x) == FindMSb(~x)] when [x < 0], whether [~x] keeps the promoted
    type or is converted back to the type of [x]. *)
Theorem FindMSb_signed_delegates (T : IntType) (v : Z) :
  is_signed T = true -> in_range T v ->
  (0 <= v ->
   FindMSb T v = FindMSb (make_unsigned T) (bit_pattern T v)) /\
  (v < 0 ->
   FindMSb T v =
     FindMSb (make_unsigned T) (complement (bits T) (bit_pattern T v)) /\
   complement (bits T) (bit_pattern T v) = bit_pattern T (Z.lnot v)) /\
  FindMSb T (-1) = 0 /\
  (v < 0 ->
   FindMSb T v = FindMSb (promote T) (Z.lnot v) /\
   FindMSb T v = FindMSb T (wrap T (Z.lnot v))).
Proof.
  intros Hs Hr. split; [ | split; [ | split ] ].
  - intros Hv. rewrite FindMSb_signed_unfold, bit_pattern_wrap by assumption.
    rewrite Z.geb_leb. destruct (Z.leb_spec 0 v); [ reflexivity | lia ].
  - intros Hv. rewrite complement_bit_pattern. split; [ | reflexivity ].
    rewrite FindMSb_signed_unfold, bit_pattern_wrap by assumption.
    rewrite Z.geb_leb. destruct (Z.leb_spec 0 v); [ lia | reflexivity ].
  - destruct T; try discriminate; reflexivity.
  - intros Hv.
    assert (Hn : 0 <= Z.lnot v) by (unfold Z.lnot; lia).
    pose proof (lnot_in_range T v Hs Hr) as Hl.
    assert (Hlog : FindMSb T v = Z.log2 (Z.lnot v)).
    { rewrite FindMSb_signed, Z.geb_leb by assumption.
      destruct (Z.leb_spec 0 v); [ lia | reflexivity ]. }
    assert (Hpos : forall U, is_signed U = true -> in_range U (Z.lnot v) ->
                             FindMSb U (Z.lnot v) = Z.log2 (Z.lnot v)).
    { intros U HU HrU. rewrite FindMSb_signed, Z.geb_leb by assumption.
      destruct (Z.leb_spec 0 (Z.lnot v)); [ reflexivity | lia ]. }
    split.
    + rewrite Hlog. symmetry. apply Hpos.
      * destruct T; try discriminate; reflexivity.
      * now apply in_range_promote.
    + rewrite wrap_id by assumption. rewrite Hlog. symmetry. now apply Hpos.
Qed.

Lemma FindMSb_signed_delegates_witness :
  is_signed I8 = true /\ in_range I8 (-65) /\
  (0 <= -65 ->
   FindMSb I8 (-65) = FindMSb (make_unsigned I8) (bit_pattern I8 (-65))) /\
  (-65 < 0 ->
   FindMSb I8 (-65) =
     FindMSb (make_unsigned I8) (complement (bits I8) (bit_pattern I8 (-65))) /\
   complement (bits I8) (bit_pattern I8 (-65)) = bit_pattern I8 (Z.lnot (-65))) /\
  FindMSb I8 (-1) = 0 /\
  (-65 < 0 ->
   FindMSb I8 (-65) = FindMSb (promote I8) (Z.lnot (-65)) /\
   FindMSb I8 (-65) = FindMSb I8 (wrap I8 (Z.lnot (-65)))).
Proof.
  assert (Hr : in_range I8 (-65))
    by (unfold in_range, numeric_limits_min, numeric_limits_max; simpl; lia).
  split; [ reflexivity | ]. split; [ exact Hr | ].
  exact (FindMSb_signed_delegates I8 (-65) eq_refl Hr).
Defined.

(** C10.  For an unsigned [v] of [W] = 8, 16, 32 or 64 bits, [FindMSb(v)] is
    at most [W - 1]: the number of bits [W], the upper end of the range the
    header comment gives, is never returned.  [W - 1] is returned for the
    largest value of the type. *)
Theorem FindMSb_below_width (T : IntType) (v : Z) :
  is_signed T = false -> in_range T v ->
  0 <= FindMSb T v <= bits T - 1 /\
  FindMSb T v <> bits T /\
  FindMSb T (numeric_limits_max T) = bits T - 1.
Proof.
  intros Hu Hr. destruct (FindMSb_unsigned T v Hu Hr) as [_ Hb].
  split; [ exact Hb | ]. split; [ lia | ].
  destruct T; try discriminate; reflexivity.
Qed.

Lemma FindMSb_below_width_witness :
  is_signed U64 = false /\ in_range U64 0x40000000000 /\
  0 <= FindMSb U64 0x40000000000 <= bits U64 - 1 /\
  FindMSb U64 0x40000000000 <> bits U64 /\
  FindMSb U64 (numeric_limits_max U64) = bits U64 - 1.
Proof.
  assert (Hr : in_range U64 0x40000000000)
    by (unfold in_range, numeric_limits_min, numeric_limits_max; simpl; lia).
  split; [ reflexivity | ]. split; [ exact Hr | ].
  exact (FindMSb_below_width U64 0x40000000000 eq_refl Hr).
Defined.

(** C6.  On a big-endian or little-endian host, [NetworkByteOrder] applied
    twice to a 16-bit, 32-bit or 64-bit value gives the value back. *)
Theorem NetworkByteOrder_involution (T : IntType) (host : ByteLayout) (x : Z) :
  swappable T -> IsLittleOrBigEndian host = true -> in_range T x ->
  NetworkByteOrder T host (NetworkByteOrder T host x) = x.
Proof.
  intros HT _ Hx.
  destruct (IsBigEndian host) eqn:Hbig.
  - destruct HT as [-> | [-> | ->]]; simpl;
      unfold NetworkByteOrder_u16, NetworkByteOrder_u32, NetworkByteOrder_u64;
      rewrite Hbig; reflexivity.
  - destruct HT as [-> | [-> | ->]]; simpl;
      apply unsigned_range in Hx; try reflexivity; simpl bits in Hx.
    + now apply swap_swap_u16.
    + now apply swap_swap_u32.
    + now apply swap_swap_u64.
Qed.

Lemma NetworkByteOrder_involution_witness :
  swappable U64 /\
  IsLittleOrBigEndian (layout_of Little_Endian) = true /\
  in_range U64 0x123456789abcdef0 /\
  NetworkByteOrder U64 (layout_of Little_Endian)
    (NetworkByteOrder U64 (layout_of Little_Endian) 0x123456789abcdef0)
  = 0x123456789abcdef0.
Proof.
  assert (HT : swappable U64) by (right; right; reflexivity).
  assert (Hr : in_range U64 0x123456789abcdef0)
    by (unfold in_range, numeric_limits_min, numeric_limits_max; simpl; lia).
  split; [ exact HT | ]. split; [ reflexivity | ]. split; [ exact Hr | ].
  exact (NetworkByteOrder_involution U64 (layout_of Little_Endian)
           0x123456789abcdef0 HT eq_refl Hr).
Defined.

(** C7, as stated, fails: on a little-endian host the 32-bit value
    [0x01020201] has bytes that are not all the same, and [NetworkByteOrder]
    returns it unchanged. *)
Lemma NetworkByteOrder_palindrome_unchanged :
  ~ (forall (T : IntType) (host : ByteLayout) (x : Z),
        swappable T -> IsLittleEndian host = true -> in_range T x ->
        bytes_differ T x -> NetworkByteOrder T host x <> x).
Proof.
  intros Hclaim.
  apply (Hclaim U32 (layout_of Little_Endian) 0x01020201).
  - right; left; reflexivity.
  - reflexivity.
  - unfold in_range, numeric_limits_min, numeric_limits_max; simpl; lia.
  - exists 0, 1. repeat split; try (vm_compute; congruence).
  - reflexivity.
Qed.

(** C7, amended.  On a big-endian host [NetworkByteOrder(x) == x] for every
    [x]; on a little-endian host [NetworkByteOrder(x) != x] for every [x] of
    16, 32 or 64 bits whose bytes do not read the same in both directions,
    which for 16 bits is every [x] whose two bytes differ. *)
Theorem NetworkByteOrder_changes_non_palindromes
    (T : IntType) (host : ByteLayout) (x : Z) :
  swappable T -> in_range T x ->
  (IsBigEndian host = true -> NetworkByteOrder T host x = x) /\
  (IsLittleEndian host = true -> not_palindrome T x ->
   NetworkByteOrder T host x <> x) /\
  (IsLittleEndian host = true -> T = U16 -> bytes_differ T x ->
   NetworkByteOrder T host x <> x).
Proof.
  intros HT Hx.
  assert (Hmirror : IsLittleEndian host = true -> not_palindrome T x ->
                    NetworkByteOrder T host x <> x).
  { intros Hl (i & Hi & Hne) Heq. apply Hne.
    rewrite <- Heq at 1.
    apply NetworkByteOrder_byte; auto using little_not_big. }
  split; [ | split ].
  - intros Hbig. destruct HT as [-> | [-> | ->]]; simpl;
      unfold NetworkByteOrder_u16, NetworkByteOrder_u32, NetworkByteOrder_u64;
      rewrite Hbig; reflexivity.
  - exact Hmirror.
  - intros Hl -> (i & j & Hi & Hj & Hne). apply Hmirror; auto.
    change (bytes U16) with 2 in *.
    assert (Hcases : (i = 0 /\ j = 1) \/ (i = 1 /\ j = 0) \/ i = j) by lia.
    destruct Hcases as [[-> ->] | [[-> ->] | ->]].
    + exists 0. split; [ change (bytes U16) with 2; lia | exact Hne ].
    + exists 1. split; [ change (bytes U16) with 2; lia | exact Hne ].
    + contradiction.
Qed.

Lemma NetworkByteOrder_changes_non_palindromes_witness :
  swappable U16 /\ in_range U16 0x1234 /\
  (IsBigEndian (layout_of Little_Endian) = true ->
   NetworkByteOrder U16 (layout_of Little_Endian) 0x1234 = 0x1234) /\
  (IsLittleEndian (layout_of Little_Endian) = true ->
   not_palindrome U16 0x1234 ->
   NetworkByteOrder U16 (layout_of Little_Endian) 0x1234 <> 0x1234) /\
  (IsLittleEndian (layout_of Little_Endian) = true -> U16 = U16 ->
   bytes_differ U16 0x1234 ->
   NetworkByteOrder U16 (layout_of Little_Endian) 0x1234 <> 0x1234).
Proof.
  assert (HT : swappable U16) by (left; reflexivity).
  assert (Hr : in_range U16 0x1234)
    by (unfold in_range, numeric_limits_min, numeric_limits_max; simpl; lia).
  split; [ exact HT | ]. split; [ exact Hr | ].
  exact (NetworkByteOrder_changes_non_palindromes U16
           (layout_of Little_Endian) 0x1234 HT Hr).
Defined.

(** C8.  The enumeration has exactly four enumerators, with the values
    [0x00010203] (big endian), [0x01000302] (PDP), [0x02030001] (Honeywell)
    and [0x03020100] (little endian); each is what a host of that byte
    ordering reads back from the octets [{0, 1, 2, 3}], which is what
    [DetermineMachineEndian] returns there. *)
Theorem EndianClassification_encoding :
  enumerator Big_Endian = 0x00010203 /\
  enumerator PDP_Endian = 0x01000302 /\
  enumerator Honeywell_Endian = 0x02030001 /\
  enumerator Little_Endian = 0x03020100 /\
  (forall e, e = Big_Endian \/ e = PDP_Endian \/
             e = Honeywell_Endian \/ e = Little_Endian) /\
  (forall e e', enumerator e = enumerator e' -> e = e') /\
  (forall e, read_octets (layout_of e) [0; 1; 2; 3] = enumerator e) /\
  (forall e, DetermineMachineEndian (layout_of e) = enumerator e) /\
  store_octets (layout_of Big_Endian) 0x0A0B0C0D = [0x0A; 0x0B; 0x0C; 0x0D] /\
  store_octets (layout_of PDP_Endian) 0x0A0B0C0D = [0x0B; 0x0A; 0x0D; 0x0C] /\
  store_octets (layout_of Honeywell_Endian) 0x0A0B0C0D
    = [0x0C; 0x0D; 0x0A; 0x0B] /\
  store_octets (layout_of Little_Endian) 0x0A0B0C0D = [0x0D; 0x0C; 0x0B; 0x0A].
Proof.
  repeat split; try reflexivity.
  - intros e. destruct e; auto.
  - intros e e'. destruct e, e'; simpl; intros H; try reflexivity;
      discriminate H.
  - intros e. destruct e; reflexivity.
  - intros e. destruct e; reflexivity.
Qed.

(** C9.  [ShiftLeft] and [ShiftRight] compute the two formulas for every
    integral type (lemmas [ShiftLeft_refines] and [ShiftRight_refines]), and
    [ShiftLeft(uint8(0b00000011), 2) == 0b00001100]; but the default mask,
    [std::numeric_limits<T>::max()], is all-ones for the unsigned types
    only.  For [std::int32_t] it leaves the sign bit out, so the defaults
    clear the sign of a shifted value where the all-ones mask keeps it. *)
Theorem ShiftLeft_signed_default_mask :
  ShiftLeft_default U8 3 2 = Some 12 /\
  default_mask I32 = 0x7FFFFFFF /\
  all_ones I32 = -1 /\
  ShiftLeft_default I32 (-1) 4 = Some 0x7FFFFFF0 /\
  ShiftLeft I32 (-1) 4 (all_ones I32) = Some (-16) /\
  ShiftRight_default I32 (-16) 2 = Some 0x1FFFFFFC /\
  ShiftRight I32 (-16) 2 (all_ones I32) = Some (-4) /\
  (forall T, is_signed T = false -> default_mask T = all_ones T) /\
  (forall T, is_signed T = true -> default_mask T <> all_ones T).
Proof.
  repeat split; try reflexivity.
  - intros T Hu. unfold default_mask, numeric_limits_max, all_ones.
    now rewrite Hu.
  - intros T Hs. unfold default_mask, numeric_limits_max, all_ones.
    rewrite Hs. pose proof (bits_pos T).
    assert (0 < 2 ^ (bits T - 1)) by (apply Z.pow_pos_nonneg; lia).
    lia.
Qed.

(** * Further properties of the code *)

(** ** Rotation *)

Lemma mod_window_down (W a : Z) : 0 <= a - W < W -> a mod W = a - W.
Proof. intros H. symmetry. apply Z.mod_unique with (q := 1); lia. Qed.

Lemma mod_window_up (W a : Z) : 0 <= a + W < W -> a mod W = a + W.
Proof. intros H. symmetry. apply Z.mod_unique with (q := -1); lia. Qed.

(** The two rotations of a window, with the index counted modulo [W]. *)
Lemma rotl_spec_mod (W x k j : Z) :
  0 <= x < 2 ^ W -> 0 < k < W -> 0 <= j < W ->
  Z.testbit (rotl W x k) j = Z.testbit x ((j - k) mod W).
Proof.
  intros Hx Hk Hj. rewrite rotl_spec by (auto; lia).
  destruct (Z.ltb_spec j W); [ | lia ].
  destruct (Z.ltb_spec j k); f_equal.
  - rewrite mod_window_up; lia.
  - rewrite Z.mod_small; lia.
Qed.

Lemma rotr_spec_mod (W x k j : Z) :
  0 <= x < 2 ^ W -> 0 < k < W -> 0 <= j < W ->
  Z.testbit (rotr W x k) j = Z.testbit x ((j + k) mod W).
Proof.
  intros Hx Hk Hj. rewrite rotr_spec by (auto; lia).
  destruct (Z.ltb_spec j W); [ | lia ].
  destruct (Z.ltb_spec (j + k) W); f_equal.
  - rewrite Z.mod_small; lia.
  - rewrite mod_window_down; lia.
Qed.

(** X1.  For an unsigned type of [W] bits, [RotateLeft] with the default
    width and mask is a cyclic rotation: the result is a value of the type
    whose bit [j] is bit [(j - k) mod W] of the operand. *)
Theorem RotateLeft_cyclic (T : IntType) (x k : Z) :
  is_signed T = false -> in_range T x -> 0 < k < bits T ->
  exists y,
    RotateLeft_default T x k = Some y /\ in_range T y /\
    forall j, 0 <= j < bits T ->
              Z.testbit y j = Z.testbit x ((j - k) mod bits T).
Proof.
  intros Hu Hx Hk. exists (rotl (bits T) x k).
  split; [ now apply RotateLeft_default_unsigned | ].
  split; [ now apply rot_in_range | ].
  intros j Hj. apply rotl_spec_mod; auto. now apply unsigned_range.
Qed.

Lemma RotateLeft_cyclic_witness :
  is_signed U16 = false /\ in_range U16 0x8001 /\ 0 < 3 < bits U16 /\
  exists y,
    RotateLeft_default U16 0x8001 3 = Some y /\ in_range U16 y /\
    forall j, 0 <= j < bits U16 ->
              Z.testbit y j = Z.testbit 0x8001 ((j - 3) mod bits U16).
Proof.
  assert (Hr : in_range U16 0x8001)
    by (unfold in_range, numeric_limits_min, numeric_limits_max; simpl; lia).
  assert (Hk : 0 < 3 < bits U16) by (simpl; lia).
  split; [ reflexivity | ]. split; [ exact Hr | ]. split; [ exact Hk | ].
  exact (RotateLeft_cyclic U16 0x8001 3 eq_refl Hr Hk).
Defined.

(** X2.  For an unsigned type of [W] bits, [RotateRight] with the default
    width and mask is a cyclic rotation: the result is a value of the type
    whose bit [j] is bit [(j + k) mod W] of the operand. *)
Theorem RotateRight_cyclic (T : IntType) (x k : Z) :
  is_signed T = false -> in_range T x -> 0 < k < bits T ->
  exists y,
    RotateRight_default T x k = Some y /\ in_range T y /\
    forall j, 0 <= j < bits T ->
              Z.testbit y j = Z.testbit x ((j + k) mod bits T).
Proof.
  intros Hu Hx Hk. exists (rotr (bits T) x k).
  split; [ now apply RotateRight_default_unsigned | ].
  split; [ now apply rot_in_range | ].
  intros j Hj. apply rotr_spec_mod; auto. now apply unsigned_range.
Qed.

Lemma RotateRight_cyclic_witness :
  is_signed U64 = false /\ in_range U64 0x8001 /\ 0 < 40 < bits U64 /\
  exists y,
    RotateRight_default U64 0x8001 40 = Some y /\ in_range U64 y /\
    forall j, 0 <= j < bits U64 ->
              Z.testbit y j = Z.testbit 0x8001 ((j + 40) mod bits U64).
Proof.
  assert (Hr : in_range U64 0x8001)
    by (unfold in_range, numeric_limits_min, numeric_limits_max; simpl; lia).
  assert (Hk : 0 < 40 < bits U64) by (simpl; lia).
  split; [ reflexivity | ]. split; [ exact Hr | ]. split; [ exact Hk | ].
  exact (RotateRight_cyclic U64 0x8001 40 eq_refl Hr Hk).
Defined.

Lemma rotl_rotl (W x a b : Z) :
  0 <= x < 2 ^ W -> 0 < a < W -> 0 < b < W -> 0 < (a + b) mod W ->
  rotl W (rotl W x a) b = rotl W x ((a + b) mod W).
Proof.
  intros Hx Ha Hb Hc.
  assert (HcW : (a + b) mod W < W) by (apply Z.mod_pos_bound; lia).
  apply Z.bits_inj'. intros j Hj.
  destruct (Z.ltb_spec j W) as [HjW | HjW].
  - rewrite rotl_spec_mod by (auto; try lia; apply rot_window; lia).
    rewrite !rotl_spec_mod
      by (auto; try lia; apply Z.mod_pos_bound; lia).
    f_equal.
    rewrite Zminus_mod_idemp_l, Zminus_mod_idemp_r. f_equal. lia.
  - rewrite !(testbit_above W) by (auto; try lia; apply rot_window; lia).
    reflexivity.
Qed.

Lemma rotl_rotl_full (W x a b : Z) :
  0 <= x < 2 ^ W -> 0 < a < W -> 0 < b < W -> a + b = W ->
  rotl W (rotl W x a) b = x.
Proof.
  intros Hx Ha Hb Hc.
  apply Z.bits_inj'. intros j Hj.
  destruct (Z.ltb_spec j W) as [HjW | HjW].
  - rewrite rotl_spec_mod by (auto; try lia; apply rot_window; lia).
    rewrite rotl_spec_mod by (auto; try lia; apply Z.mod_pos_bound; lia).
    f_equal. rewrite Zminus_mod_idemp_l.
    replace (j - b - a) with (j + (-1) * W) by lia.
    rewrite Z.mod_add by lia. apply Z.mod_small. lia.
  - rewrite !(testbit_above W) by (auto; try lia; apply rot_window; lia).
    reflexivity.
Qed.

(** X3.  Left rotations of an unsigned value add up modulo the width:
    rotating by [a] and then by [b] is rotating by [(a + b) mod W], and gives
    the value back when [a + b = W]. *)
Theorem RotateLeft_compose (T : IntType) (x a b : Z) :
  is_signed T = false -> in_range T x ->
  0 < a < bits T -> 0 < b < bits T ->
  (y <- RotateLeft_default T x a ;; RotateLeft_default T y b) =
  if a + b =? bits T then Some x
  else RotateLeft_default T x ((a + b) mod bits T).
Proof.
  intros Hu Hx Ha Hb.
  assert (Hx' : 0 <= x < 2 ^ bits T) by (now apply unsigned_range).
  rewrite (RotateLeft_default_unsigned T Hu x a) by assumption. cbn [bind].
  rewrite (RotateLeft_default_unsigned T Hu (rotl (bits T) x a) b)
    by (try assumption; now apply rot_in_range).
  destruct (Z.eqb_spec (a + b) (bits T)) as [Heq | Hne].
  - now rewrite rotl_rotl_full.
  - assert (Hc : 0 < (a + b) mod bits T < bits T).
    { destruct (Z.ltb_spec (a + b) (bits T)).
      - rewrite Z.mod_small; lia.
      - rewrite mod_window_down; lia. }
    rewrite RotateLeft_default_unsigned by assumption.
    rewrite rotl_rotl by (auto; lia).
    reflexivity.
Qed.

Lemma RotateLeft_compose_witness :
  is_signed U8 = false /\ in_range U8 0x83 /\
  0 < 5 < bits U8 /\ 0 < 6 < bits U8 /\
  (y <- RotateLeft_default U8 0x83 5 ;; RotateLeft_default U8 y 6) =
  if 5 + 6 =? bits U8 then Some 0x83
  else RotateLeft_default U8 0x83 ((5 + 6) mod bits U8).
Proof.
  assert (Hr : in_range U8 0x83)
    by (unfold in_range, numeric_limits_min, numeric_limits_max; simpl; lia).
  assert (Ha : 0 < 5 < bits U8) by (simpl; lia).
  assert (Hb : 0 < 6 < bits U8) by (simpl; lia).
  split; [ reflexivity | ]. split; [ exact Hr | ].
  split; [ exact Ha | ]. split; [ exact Hb | ].
  exact (RotateLeft_compose U8 0x83 5 6 eq_refl Hr Ha Hb).
Defined.

Lemma formula_rotl_window (x k w : Z) :
  0 < k < w ->
  Formula.RotateLeft x k w (Z.ones w) = rotl w (x mod 2 ^ w) k.
Proof.
  intros Hk. unfold Formula.RotateLeft, rotl. bits_solve.
Qed.

Lemma formula_rotr_window (x k w : Z) :
  0 < k < w ->
  Formula.RotateRight x k w (Z.ones w) = rotr w (x mod 2 ^ w) k.
Proof.
  intros Hk. unfold Formula.RotateRight, rotr. bits_solve.
Qed.

Lemma narrower_mask (T U : IntType) :
  is_signed T = false -> is_signed U = false -> bits U <= bits T ->
  numeric_limits_max U = Z.ones (bits U) /\
  in_range T (Z.ones (bits U)) /\ 0 <= Z.ones (bits U).
Proof.
  intros HT HU Hle. pose proof (bits_pos U).
  assert (0 < 2 ^ bits U) by (apply Z.pow_pos_nonneg; lia).
  assert (2 ^ bits U <= 2 ^ bits T) by (apply Z.pow_le_mono_r; lia).
  rewrite Z.ones_equiv.
  unfold in_range, numeric_limits_min, numeric_limits_max.
  rewrite HT, HU. lia.
Qed.

(** X4.  A wider unsigned type rotated with the width and the mask of a
    narrower one (the [std::uint_fast32_t] use): the result is the rotation
    of the narrower type applied to the value truncated to it, whatever the
    upper bits of the value are. *)
Theorem Rotate_explicit_width (T U : IntType) (x k : Z) :
  is_signed T = false -> is_signed U = false -> bits U <= bits T ->
  in_range T x -> 0 < k < bits U ->
  (exists y,
     RotateLeft T x k (bits U) (numeric_limits_max U) = Some y /\
     RotateLeft_default U (wrap U x) k = Some y) /\
  (exists y,
     RotateRight T x k (bits U) (numeric_limits_max U) = Some y /\
     RotateRight_default U (wrap U x) k = Some y).
Proof.
  intros HT HU Hle Hx Hk.
  destruct (narrower_mask T U HT HU Hle) as (-> & Hm & H0).
  pose proof (bits_promote T) as Hp.
  assert (Hw : wrap U x = x mod 2 ^ bits U) by (unfold wrap; now rewrite HU).
  pose proof (wrap_in_range U x) as Hr.
  split.
  - exists (rotl (bits U) (x mod 2 ^ bits U) k). split.
    + rewrite RotateLeft_exact by (auto; lia).
      now rewrite formula_rotl_window.
    + rewrite RotateLeft_default_unsigned by assumption. now rewrite Hw.
  - exists (rotr (bits U) (x mod 2 ^ bits U) k). split.
    + rewrite RotateRight_exact by (auto; lia).
      now rewrite formula_rotr_window.
    + rewrite RotateRight_default_unsigned by assumption. now rewrite Hw.
Qed.

Lemma Rotate_explicit_width_witness :
  is_signed U64 = false /\ is_signed U32 = false /\ bits U32 <= bits U64 /\
  in_range U64 0xAB0c0d0e0f /\ 0 < 8 < bits U32 /\
  (exists y,
     RotateLeft U64 0xAB0c0d0e0f 8 (bits U32) (numeric_limits_max U32) = Some y /\
     RotateLeft_default U32 (wrap U32 0xAB0c0d0e0f) 8 = Some y) /\
  (exists y,
     RotateRight U64 0xAB0c0d0e0f 8 (bits U32) (numeric_limits_max U32) = Some y /\
     RotateRight_default U32 (wrap U32 0xAB0c0d0e0f) 8 = Some y).
Proof.
  assert (Hle : bits U32 <= bits U64) by (simpl; lia).
  assert (Hr : in_range U64 0xAB0c0d0e0f)
    by (unfold in_range, numeric_limits_min, numeric_limits_max; simpl; lia).
  assert (Hk : 0 < 8 < bits U32) by (simpl; lia).
  split; [ reflexivity | ]. split; [ reflexivity | ]. split; [ exact Hle | ].
  split; [ exact Hr | ]. split; [ exact Hk | ].
  exact (Rotate_explicit_width U64 U32 0xAB0c0d0e0f 8 eq_refl eq_refl Hle Hr Hk).
Defined.

Lemma shl_undefined (P : IntType) (a n : Z) : bits P <= n -> shl P a n = None.
Proof.
  intros H. unfold shl.
  destruct (Z.ltb_spec n (bits P)); [ lia | now rewrite andb_false_r ].
Qed.

Lemma shr_undefined (P : IntType) (a n : Z) : bits P <= n -> shr P a n = None.
Proof.
  intros H. unfold shr.
  destruct (Z.ltb_spec n (bits P)); [ lia | now rewrite andb_false_r ].
Qed.

(** The two refinement lemmas again, with the counts 0 and [width]
    admitted as long as both shifts stay below the promoted width. *)
Lemma RotateLeft_refines_wide (T : IntType) (value n width mask : Z) :
  0 <= n <= width -> n < bits (promote T) -> width - n < bits (promote T) ->
  RotateLeft T value n width mask =
  Some (wrap T (Formula.RotateLeft value n width mask)).
Proof.
  intros Hn Hl Hr. pose proof (bits_promote_le_64 T) as H64.
  unfold RotateLeft, Formula.RotateLeft.
  rewrite shl_defined by lia.
  rewrite size_sub_small by (simpl; lia).
  rewrite shr_defined by lia.
  simpl. f_equal. apply wrap_ext. intros j Hj.
  pose proof (bits_promote T).
  rewrite !Z.land_spec, !Z.lor_spec, wrap_testbit_low by lia.
  reflexivity.
Qed.

Lemma RotateRight_refines_wide (T : IntType) (value n width mask : Z) :
  0 <= n <= width -> n < bits (promote T) -> width - n < bits (promote T) ->
  RotateRight T value n width mask =
  Some (wrap T (Formula.RotateRight value n width mask)).
Proof.
  intros Hn Hl Hr. pose proof (bits_promote_le_64 T) as H64.
  unfold RotateRight, Formula.RotateRight.
  rewrite shr_defined by lia.
  rewrite size_sub_small by (simpl; lia).
  rewrite shl_defined by lia.
  simpl. f_equal. apply wrap_ext. intros j Hj.
  pose proof (bits_promote T).
  rewrite !Z.land_spec, !Z.lor_spec, wrap_testbit_low by lia.
  reflexivity.
Qed.

Lemma formula_rot_trivial (W x : Z) :
  0 < W -> 0 <= x < 2 ^ W ->
  Formula.RotateLeft x 0 W (Z.ones W) = x /\
  Formula.RotateLeft x W W (Z.ones W) = x /\
  Formula.RotateRight x 0 W (Z.ones W) = x /\
  Formula.RotateRight x W W (Z.ones W) = x.
Proof.
  intros HW Hx. rewrite <- (land_ones_id W x) by assumption.
  unfold Formula.RotateLeft, Formula.RotateRight.
  repeat split; bits_solve.
Qed.

(** X5.  The rotation counts 0 and [W], with the default width and mask on
    an unsigned type: for the 8-bit and 16-bit types, which are promoted to
    [int] before they are shifted, both rotations return the value
    unchanged; for the 32-bit and 64-bit types one of the two shifts is by
    the full width of the type, and the call is undefined. *)
Theorem rotate_by_zero_or_width (T : IntType) (x : Z) :
  is_signed T = false -> in_range T x ->
  (bits T < bits (promote T) ->
   RotateLeft_default T x 0 = Some x /\
   RotateLeft_default T x (bits T) = Some x /\
   RotateRight_default T x 0 = Some x /\
   RotateRight_default T x (bits T) = Some x) /\
  (bits T = bits (promote T) ->
   RotateLeft_default T x 0 = None /\
   RotateLeft_default T x (bits T) = None /\
   RotateRight_default T x 0 = None /\
   RotateRight_default T x (bits T) = None).
Proof.
  intros Hu Hx. pose proof (bits_pos T) as HW.
  pose proof (bits_promote_le_64 T) as H64.
  split.
  - intros Hnarrow.
    assert (Hx' : 0 <= x < 2 ^ bits T) by (now apply unsigned_range).
    destruct (formula_rot_trivial (bits T) x HW Hx') as (E1 & E2 & E3 & E4).
    unfold RotateLeft_default, RotateRight_default, default_width.
    rewrite !RotateLeft_refines_wide, !RotateRight_refines_wide by lia.
    rewrite unsigned_mask_ones, E1, E2, E3, E4 by assumption.
    rewrite wrap_id by assumption. repeat split; reflexivity.
  - intros Hfull.
    unfold RotateLeft_default, RotateRight_default, default_width,
      RotateLeft, RotateRight.
    repeat split;
      rewrite ?size_sub_small by (simpl; lia);
      first
        [ rewrite shl_defined by lia; cbn [bind]; rewrite shr_undefined by lia
        | rewrite shr_defined by lia; cbn [bind]; rewrite shl_undefined by lia ];
      reflexivity.
Qed.

Lemma rotate_by_zero_or_width_witness :
  is_signed U32 = false /\ in_range U32 0x0000FFFF /\
  (bits U32 < bits (promote U32) ->
   RotateLeft_default U32 0x0000FFFF 0 = Some 0x0000FFFF /\
   RotateLeft_default U32 0x0000FFFF (bits U32) = Some 0x0000FFFF /\
   RotateRight_default U32 0x0000FFFF 0 = Some 0x0000FFFF /\
   RotateRight_default U32 0x0000FFFF (bits U32) = Some 0x0000FFFF) /\
  (bits U32 = bits (promote U32) ->
   RotateLeft_default U32 0x0000FFFF 0 = None /\
   RotateLeft_default U32 0x0000FFFF (bits U32) = None /\
   RotateRight_default U32 0x0000FFFF 0 = None /\
   RotateRight_default U32 0x0000FFFF (bits U32) = None).
Proof.
  assert (Hr : in_range U32 0x0000FFFF)
    by (unfold in_range, numeric_limits_min, numeric_limits_max; simpl; lia).
  split; [ reflexivity | ]. split; [ exact Hr | ].
  exact (rotate_by_zero_or_width U32 0x0000FFFF eq_refl Hr).
Defined.

Lemma signed_mask_ones (T : IntType) :
  is_signed T = true ->
  default_mask T = Z.ones (bits T - 1) /\
  in_range T (Z.ones (bits T - 1)) /\ 0 <= Z.ones (bits T - 1).
Proof.
  intros Hs. pose proof (bits_pos T).
  assert (0 < 2 ^ (bits T - 1)) by (apply Z.pow_pos_nonneg; lia).
  rewrite Z.ones_equiv.
  unfold default_mask, in_range, numeric_limits_min, numeric_limits_max.
  rewrite Hs. lia.
Qed.

Lemma formula_rotl_signed (W x k : Z) :
  0 < k < W -> 0 <= x < 2 ^ (W - 1) ->
  Formula.RotateLeft x k W (Z.ones (W - 1)) =
  Z.land (rotl W x k) (Z.ones (W - 1)).
Proof.
  intros Hk Hx. rewrite <- (land_ones_id (W - 1) x) by assumption.
  unfold Formula.RotateLeft, rotl. bits_solve.
Qed.

Lemma land_ones_below_id (W r : Z) :
  0 < W -> 0 <= r < 2 ^ W ->
  (Z.land r (Z.ones (W - 1)) = r <-> Z.testbit r (W - 1) = false).
Proof.
  intros HW Hr. split.
  - intros <-. rewrite Z.land_spec, Z.testbit_ones by lia.
    destruct (Z.ltb_spec (W - 1) (W - 1)); [ lia | ].
    now rewrite !andb_false_r.
  - intros Hb. apply Z.bits_inj'. intros j Hj.
    rewrite Z.land_spec, Z.testbit_ones by lia.
    destruct (Z.leb_spec 0 j); [ | lia ].
    destruct (Z.ltb_spec j (W - 1)); cbn [andb].
    + apply andb_true_r.
    + rewrite andb_false_r. symmetry.
      destruct (Z.eq_dec j (W - 1)) as [-> | Hne]; [ exact Hb | ].
      apply (testbit_above W); auto; lia.
Qed.

(** X6.  On a signed type and a non-negative value, [RotateLeft] with the
    default width and mask returns the rotation of the [W]-bit pattern with
    its top bit cleared; it is the true rotation exactly when bit
    [W - 1 - k] of the value, the one that would arrive in the sign bit, is
    0. *)
Theorem RotateLeft_signed_default (T : IntType) (x k : Z) :
  is_signed T = true -> in_range T x -> 0 <= x -> 0 < k < bits T ->
  RotateLeft_default T x k =
    Some (Z.land (rotl (bits T) x k) (Z.ones (bits T - 1))) /\
  (RotateLeft_default T x k = Some (rotl (bits T) x k) <->
   Z.testbit x (bits T - 1 - k) = false).
Proof.
  intros Hs Hr H0 Hk. pose proof (bits_pos T) as HW.
  destruct (signed_mask_ones T Hs) as (Hmask & Hm & Hm0).
  apply signed_range in Hr; auto.
  assert (Hx : 0 <= x < 2 ^ (bits T - 1)) by lia.
  assert (Hx' : 0 <= x < 2 ^ bits T)
    by (rewrite (pow2_bits_split T); lia).
  assert (Heq : RotateLeft_default T x k =
                Some (Z.land (rotl (bits T) x k) (Z.ones (bits T - 1)))).
  { pose proof (bits_promote T).
    unfold RotateLeft_default, default_width. rewrite Hmask.
    rewrite RotateLeft_exact by (auto; lia).
    now rewrite formula_rotl_signed. }
  split; [ exact Heq | ].
  rewrite Heq.
  assert (Hbit : Z.testbit (rotl (bits T) x k) (bits T - 1) =
                 Z.testbit x (bits T - 1 - k)).
  { rewrite rotl_spec by (auto; lia).
    destruct (Z.ltb_spec (bits T - 1) (bits T)); [ | lia ].
    destruct (Z.ltb_spec (bits T - 1) k); [ lia | reflexivity ]. }
  rewrite <- Hbit.
  rewrite <- (land_ones_below_id (bits T) (rotl (bits T) x k))
    by (auto; apply rot_window; lia).
  split; [ now intros [= ->] | now intros -> ].
Qed.

Lemma RotateLeft_signed_default_witness :
  is_signed I32 = true /\ in_range I32 0x0000FFFF /\ 0 <= 0x0000FFFF /\
  0 < 4 < bits I32 /\
  RotateLeft_default I32 0x0000FFFF 4 =
    Some (Z.land (rotl (bits I32) 0x0000FFFF 4) (Z.ones (bits I32 - 1))) /\
  (RotateLeft_default I32 0x0000FFFF 4 = Some (rotl (bits I32) 0x0000FFFF 4) <->
   Z.testbit 0x0000FFFF (bits I32 - 1 - 4) = false).
Proof.
  assert (Hr : in_range I32 0x0000FFFF)
    by (unfold in_range, numeric_limits_min, numeric_limits_max; simpl; lia).
  assert (H0 : 0 <= 0x0000FFFF) by lia.
  assert (Hk : 0 < 4 < bits I32) by (simpl; lia).
  split; [ reflexivity | ]. split; [ exact Hr | ]. split; [ exact H0 | ].
  split; [ exact Hk | ].
  exact (RotateLeft_signed_default I32 0x0000FFFF 4 eq_refl Hr H0 Hk).
Defined.

(** ** Masked shifts *)

Section UnsignedShift.

Variable T : IntType.
Hypothesis Hunsigned : is_signed T = false.
Variables x n : Z.
Hypothesis Hx : in_range T x.
Hypothesis Hn : 0 <= n < bits (promote T).

Lemma ShiftLeft_default_unsigned :
  ShiftLeft_default T x n = Some (Z.land (Z.shiftl x n) (Z.ones (bits T))).
Proof.
  destruct (default_mask_in_range T Hunsigned).
  unfold ShiftLeft_default.
  rewrite ShiftLeft_exact by auto.
  unfold Formula.ShiftLeft. now rewrite unsigned_mask_ones.
Qed.

Lemma ShiftRight_default_unsigned :
  ShiftRight_default T x n = Some (Z.shiftr x n).
Proof.
  destruct (default_mask_in_range T Hunsigned).
  unfold ShiftRight_default.
  rewrite ShiftRight_exact by auto.
  unfold Formula.ShiftRight. rewrite unsigned_mask_ones by assumption.
  rewrite land_ones_id by (now apply unsigned_range).
  reflexivity.
Qed.

End UnsignedShift.

(** X7.  On an unsigned type of [W] bits and a count [0 <= n < W], with the
    default mask, [ShiftLeft] multiplies by [2^n] modulo [2^W] and
    [ShiftRight] divides by [2^n], rounding down. *)
Theorem Shift_arithmetic (T : IntType) (x n : Z) :
  is_signed T = false -> in_range T x -> 0 <= n < bits T ->
  ShiftLeft_default T x n = Some ((x * 2 ^ n) mod 2 ^ bits T) /\
  ShiftRight_default T x n = Some (x / 2 ^ n).
Proof.
  intros Hu Hx Hn. pose proof (bits_promote T).
  rewrite ShiftLeft_default_unsigned, ShiftRight_default_unsigned
    by (auto; lia).
  rewrite Z.land_ones, Z.shiftl_mul_pow2, Z.shiftr_div_pow2 by lia.
  split; reflexivity.
Qed.

Lemma Shift_arithmetic_witness :
  is_signed U8 = false /\ in_range U8 3 /\ 0 <= 2 < bits U8 /\
  ShiftLeft_default U8 3 2 = Some ((3 * 2 ^ 2) mod 2 ^ bits U8) /\
  ShiftRight_default U8 3 2 = Some (3 / 2 ^ 2).
Proof.
  assert (Hr : in_range U8 3)
    by (unfold in_range, numeric_limits_min, numeric_limits_max; simpl; lia).
  assert (Hn : 0 <= 2 < bits U8) by (simpl; lia).
  split; [ reflexivity | ]. split; [ exact Hr | ]. split; [ exact Hn | ].
  exact (Shift_arithmetic U8 3 2 eq_refl Hr Hn).
Defined.

(** X8.  On an unsigned type of [W] bits, with the default mask: shifting
    left and then right by [n] keeps the low [W - n] bits of the value, and
    shifting right and then left by [n] clears its low [n] bits. *)
Theorem Shift_round_trip (T : IntType) (x n : Z) :
  is_signed T = false -> in_range T x -> 0 <= n < bits T ->
  (y <- ShiftLeft_default T x n ;; ShiftRight_default T y n)
    = Some (x mod 2 ^ (bits T - n)) /\
  (y <- ShiftRight_default T x n ;; ShiftLeft_default T y n)
    = Some (x - x mod 2 ^ n).
Proof.
  intros Hu Hx Hn. pose proof (bits_promote T).
  assert (Hx' : 0 <= x < 2 ^ bits T) by (now apply unsigned_range).
  assert (Hp : 0 < 2 ^ n) by (apply Z.pow_pos_nonneg; lia).
  assert (Hq : 0 < 2 ^ (bits T - n)) by (apply Z.pow_pos_nonneg; lia).
  assert (Hsplit : 2 ^ bits T = 2 ^ (bits T - n) * 2 ^ n).
  { rewrite <- Z.pow_add_r by lia. f_equal. lia. }
  split.
  - rewrite (ShiftLeft_default_unsigned T Hu x n) by (auto; lia).
    cbn [bind].
    rewrite ShiftRight_default_unsigned
      by (auto; try lia; now apply rot_in_range).
    f_equal.
    rewrite Z.land_ones, Z.shiftl_mul_pow2, Z.shiftr_div_pow2 by lia.
    rewrite Hsplit, Z.mul_mod_distr_r by lia.
    apply Z.div_mul. lia.
  - rewrite (ShiftRight_default_unsigned T Hu x n) by (auto; lia).
    cbn [bind].
    assert (Hd : 0 <= x / 2 ^ n <= x).
    { split; [ apply Z.div_pos; lia | apply Z.div_le_upper_bound; nia ]. }
    rewrite Z.shiftr_div_pow2 by lia.
    rewrite ShiftLeft_default_unsigned
      by (auto; try lia; apply unsigned_range; auto; lia).
    f_equal.
    rewrite Z.land_ones, Z.shiftl_mul_pow2 by lia.
    pose proof (Z.div_mod x (2 ^ n)) as Hdm.
    pose proof (Z.mod_pos_bound x (2 ^ n) Hp) as Hmb.
    rewrite Z.mod_small by lia.
    lia.
Qed.

Lemma Shift_round_trip_witness :
  is_signed U32 = false /\ in_range U32 0xFFFF0F0F /\ 0 <= 4 < bits U32 /\
  (y <- ShiftLeft_default U32 0xFFFF0F0F 4 ;; ShiftRight_default U32 y 4)
    = Some (0xFFFF0F0F mod 2 ^ (bits U32 - 4)) /\
  (y <- ShiftRight_default U32 0xFFFF0F0F 4 ;; ShiftLeft_default U32 y 4)
    = Some (0xFFFF0F0F - 0xFFFF0F0F mod 2 ^ 4).
Proof.
  assert (Hr : in_range U32 0xFFFF0F0F)
    by (unfold in_range, numeric_limits_min, numeric_limits_max; simpl; lia).
  assert (Hn : 0 <= 4 < bits U32) by (simpl; lia).
  split; [ reflexivity | ]. split; [ exact Hr | ]. split; [ exact Hn | ].
  exact (Shift_round_trip U32 0xFFFF0F0F 4 eq_refl Hr Hn).
Defined.

Lemma rotl_split (W x k : Z) :
  0 <= x < 2 ^ W -> 0 < k < W ->
  rotl W x k = Z.lor (Z.land (Z.shiftl x k) (Z.ones W)) (Z.shiftr x (W - k)) /\
  Z.land (Z.land (Z.shiftl x k) (Z.ones W)) (Z.shiftr x (W - k)) = 0.
Proof.
  intros Hx Hk. rewrite <- (land_ones_id W x) by assumption.
  unfold rotl. split; bits_solve.
Qed.

(** X9.  On an unsigned type, with the defaults, a left rotation by [k] is
    the union of [ShiftLeft] by [k] and [ShiftRight] by [W - k]; the two
    parts have no bit in common, so the union is also their sum. *)
Theorem RotateLeft_from_shifts (T : IntType) (x k : Z) :
  is_signed T = false -> in_range T x -> 0 < k < bits T ->
  exists a b,
    ShiftLeft_default T x k = Some a /\
    ShiftRight_default T x (bits T - k) = Some b /\
    Z.land a b = 0 /\
    RotateLeft_default T x k = Some (Z.lor a b) /\
    RotateLeft_default T x k = Some (a + b).
Proof.
  intros Hu Hx Hk. pose proof (bits_promote T).
  assert (Hx' : 0 <= x < 2 ^ bits T) by (now apply unsigned_range).
  destruct (rotl_split (bits T) x k Hx' Hk) as [Hrot Hdisj].
  exists (Z.land (Z.shiftl x k) (Z.ones (bits T))), (Z.shiftr x (bits T - k)).
  rewrite ShiftLeft_default_unsigned, ShiftRight_default_unsigned
    by (auto; lia).
  rewrite RotateLeft_default_unsigned, Hrot by assumption.
  repeat split; try assumption.
  f_equal. rewrite <- Z.lxor_lor by assumption.
  symmetry. now apply Z.add_nocarry_lxor.
Qed.

Lemma RotateLeft_from_shifts_witness :
  is_signed U32 = false /\ in_range U32 0xFFFF0000 /\ 0 < 4 < bits U32 /\
  exists a b,
    ShiftLeft_default U32 0xFFFF0000 4 = Some a /\
    ShiftRight_default U32 0xFFFF0000 (bits U32 - 4) = Some b /\
    Z.land a b = 0 /\
    RotateLeft_default U32 0xFFFF0000 4 = Some (Z.lor a b) /\
    RotateLeft_default U32 0xFFFF0000 4 = Some (a + b).
Proof.
  assert (Hr : in_range U32 0xFFFF0000)
    by (unfold in_range, numeric_limits_min, numeric_limits_max; simpl; lia).
  assert (Hk : 0 < 4 < bits U32) by (simpl; lia).
  split; [ reflexivity | ]. split; [ exact Hr | ]. split; [ exact Hk | ].
  exact (RotateLeft_from_shifts U32 0xFFFF0000 4 eq_refl Hr Hk).
Defined.

(** X10.  A shift count that is not below the width of an unsigned type,
    with the default mask: as long as it is below the width of the promoted
    type (8-bit and 16-bit types, counts up to 31) both functions return 0;
    from the width of the promoted type on, the shift is undefined. *)
Theorem Shift_beyond_width (T : IntType) (x n : Z) :
  is_signed T = false -> in_range T x -> bits T <= n ->
  (n < bits (promote T) ->
   ShiftLeft_default T x n = Some 0 /\ ShiftRight_default T x n = Some 0) /\
  (bits (promote T) <= n ->
   ShiftLeft_default T x n = None /\ ShiftRight_default T x n = None).
Proof.
  intros Hu Hx Hn. pose proof (bits_pos T).
  assert (Hx' : 0 <= x < 2 ^ bits T) by (now apply unsigned_range).
  split.
  - intros Hlt.
    rewrite ShiftLeft_default_unsigned, ShiftRight_default_unsigned
      by (auto; lia).
    split; f_equal.
    + bits_solve.
    + apply Z.shiftr_eq_0; [ lia | ].
      destruct (Z.eq_dec x 0) as [-> | Hne]; [ simpl; lia | ].
      assert (Z.log2 x < bits T) by (apply Z.log2_lt_pow2; lia). lia.
  - intros Hge. unfold ShiftLeft_default, ShiftRight_default, ShiftLeft, ShiftRight.
    rewrite shl_undefined, shr_undefined by lia.
    split; reflexivity.
Qed.

Lemma Shift_beyond_width_witness :
  is_signed U8 = false /\ in_range U8 0xFF /\ bits U8 <= 12 /\
  (12 < bits (promote U8) ->
   ShiftLeft_default U8 0xFF 12 = Some 0 /\
   ShiftRight_default U8 0xFF 12 = Some 0) /\
  (bits (promote U8) <= 12 ->
   ShiftLeft_default U8 0xFF 12 = None /\
   ShiftRight_default U8 0xFF 12 = None).
Proof.
  assert (Hr : in_range U8 0xFF)
    by (unfold in_range, numeric_limits_min, numeric_limits_max; simpl; lia).
  assert (Hn : bits U8 <= 12) by (simpl; lia).
  split; [ reflexivity | ]. split; [ exact Hr | ]. split; [ exact Hn | ].
  exact (Shift_beyond_width U8 0xFF 12 eq_refl Hr Hn).
Defined.

(** ** The most significant bit *)

(** The magnitude the search runs on: the value itself, or its complement
    when it is negative. *)
Lemma FindMSb_value (T : IntType) (v : Z) :
  in_range T v ->
  FindMSb T v = Z.log2 (if v >=? 0 then v else Z.lnot v).
Proof.
  intros Hr. destruct (is_signed T) eqn:Hs.
  - now apply FindMSb_signed.
  - destruct (FindMSb_unsigned T v Hs Hr) as [-> _].
    apply unsigned_range in Hr; auto.
    rewrite Z.geb_leb. destruct (Z.leb_spec 0 v); [ reflexivity | lia ].
Qed.

(** X11.  On an unsigned type, [FindMSb(v)] brackets a non-zero [v] between
    two powers of two, [2^p <= v < 2^(p+1)], and it is monotone in [v]. *)
Theorem FindMSb_bracket_monotone (T : IntType) (u v : Z) :
  is_signed T = false -> in_range T u -> in_range T v ->
  (0 < v -> 2 ^ FindMSb T v <= v < 2 ^ (FindMSb T v + 1)) /\
  (u <= v -> FindMSb T u <= FindMSb T v).
Proof.
  intros Hs Hu Hv.
  destruct (FindMSb_unsigned T u Hs Hu) as [-> _].
  destruct (FindMSb_unsigned T v Hs Hv) as [-> _].
  split.
  - intros Hpos. now apply Z.log2_spec.
  - apply Z.log2_le_mono.
Qed.

Lemma FindMSb_bracket_monotone_witness :
  is_signed U16 = false /\ in_range U16 0x1FFF /\ in_range U16 0x2000 /\
  (0 < 0x2000 ->
   2 ^ FindMSb U16 0x2000 <= 0x2000 < 2 ^ (FindMSb U16 0x2000 + 1)) /\
  (0x1FFF <= 0x2000 -> FindMSb U16 0x1FFF <= FindMSb U16 0x2000).
Proof.
  assert (Hu : in_range U16 0x1FFF)
    by (unfold in_range, numeric_limits_min, numeric_limits_max; simpl; lia).
  assert (Hv : in_range U16 0x2000)
    by (unfold in_range, numeric_limits_min, numeric_limits_max; simpl; lia).
  split; [ reflexivity | ]. split; [ exact Hu | ]. split; [ exact Hv | ].
  exact (FindMSb_bracket_monotone U16 0x1FFF 0x2000 eq_refl Hu Hv).
Defined.

(** X12.  The eight overloads agree: a value that two of the integer types
    can both hold has the same [FindMSb] under both. *)
Theorem FindMSb_overloads_agree (T U : IntType) (v : Z) :
  in_range T v -> in_range U v -> FindMSb T v = FindMSb U v.
Proof.
  intros HT HU. now rewrite !FindMSb_value.
Qed.

Lemma FindMSb_overloads_agree_witness :
  in_range I8 (-65) /\ in_range I64 (-65) /\
  FindMSb I8 (-65) = FindMSb I64 (-65).
Proof.
  assert (HT : in_range I8 (-65))
    by (unfold in_range, numeric_limits_min, numeric_limits_max; simpl; lia).
  assert (HU : in_range I64 (-65))
    by (unfold in_range, numeric_limits_min, numeric_limits_max; simpl; lia).
  split; [ exact HT | ]. split; [ exact HU | ].
  exact (FindMSb_overloads_agree I8 I64 (-65) HT HU).
Defined.

(** X13.  On a signed type and a value below -1, [FindMSb] is the position
    of the highest bit that is 0: every bit above it, up to the sign bit, is
    1. *)
Theorem FindMSb_negative_highest_zero (T : IntType) (v : Z) :
  is_signed T = true -> in_range T v -> v < -1 ->
  Z.testbit v (FindMSb T v) = false /\
  FindMSb T v < bits T - 1 /\
  forall j, FindMSb T v < j < bits T -> Z.testbit v j = true.
Proof.
  intros Hs Hr Hv. pose proof (bits_pos T).
  rewrite FindMSb_signed, Z.geb_leb by assumption.
  destruct (Z.leb_spec 0 v); [ lia | ].
  apply signed_range in Hr; auto.
  unfold Z.lnot. split; [ | split ].
  - now apply Z.bit_log2_neg.
  - apply Z.log2_lt_pow2; lia.
  - intros j Hj. apply Z.bits_above_log2_neg; lia.
Qed.

Lemma FindMSb_negative_highest_zero_witness :
  is_signed I16 = true /\ in_range I16 (-129) /\ -129 < -1 /\
  Z.testbit (-129) (FindMSb I16 (-129)) = false /\
  FindMSb I16 (-129) < bits I16 - 1 /\
  forall j, FindMSb I16 (-129) < j < bits I16 -> Z.testbit (-129) j = true.
Proof.
  assert (Hr : in_range I16 (-129))
    by (unfold in_range, numeric_limits_min, numeric_limits_max; simpl; lia).
  assert (Hv : -129 < -1) by lia.
  split; [ reflexivity | ]. split; [ exact Hr | ]. split; [ exact Hv | ].
  exact (FindMSb_negative_highest_zero I16 (-129) eq_refl Hr Hv).
Defined.

Lemma log2_zero_iff (w : Z) : 0 <= w -> (Z.log2 w = 0 <-> w <= 1).
Proof.
  intros Hw. pose proof (Z.log2_nonneg w).
  destruct (Z.eq_dec w 0) as [-> | Hne]; [ simpl; lia | ].
  pose proof (Z.log2_le_pow2 w 1 ltac:(lia)) as Hp.
  change (2 ^ 1) with 2 in Hp. lia.
Qed.

(** X14.  [FindMSb] returns 0 exactly on the values -2, -1, 0 and 1 (on 0
    and 1 for an unsigned type), and on a signed type of [W] bits it never
    exceeds [W - 2]: the sign bit is never the answer. *)
Theorem FindMSb_zero_and_signed_bound (T : IntType) (v : Z) :
  in_range T v ->
  (FindMSb T v = 0 <-> -2 <= v <= 1) /\
  (is_signed T = true -> 0 <= FindMSb T v <= bits T - 2).
Proof.
  intros Hr. rewrite FindMSb_value, Z.geb_leb by assumption.
  split.
  - destruct (Z.leb_spec 0 v).
    + rewrite log2_zero_iff by lia. lia.
    + rewrite log2_zero_iff by (unfold Z.lnot; lia). unfold Z.lnot. lia.
  - intros Hs. apply signed_range in Hr; auto.
    pose proof (bits_pos T).
    assert (Hb : forall w, 0 <= w < 2 ^ (bits T - 1) ->
                           0 <= Z.log2 w <= bits T - 2).
    { intros w Hw. split; [ apply Z.log2_nonneg | ].
      destruct (Z.eq_dec w 0) as [-> | Hne].
      - destruct T; try discriminate; simpl; lia.
      - assert (Z.log2 w < bits T - 1) by (apply Z.log2_lt_pow2; lia). lia. }
    destruct (Z.leb_spec 0 v); apply Hb; unfold Z.lnot; lia.
Qed.

Lemma FindMSb_zero_and_signed_bound_witness :
  in_range I32 (-2) /\
  (FindMSb I32 (-2) = 0 <-> -2 <= -2 <= 1) /\
  (is_signed I32 = true -> 0 <= FindMSb I32 (-2) <= bits I32 - 2).
Proof.
  assert (Hr : in_range I32 (-2))
    by (unfold in_range, numeric_limits_min, numeric_limits_max; simpl; lia).
  split; [ exact Hr | ].
  exact (FindMSb_zero_and_signed_bound I32 (-2) Hr).
Defined.

(** ** Byte order *)

Lemma bounded_by_bits (W z : Z) :
  0 <= W -> (forall j, W <= j -> Z.testbit z j = false) -> 0 <= z < 2 ^ W.
Proof.
  intros HW Hhigh.
  assert (Hz : z = z mod 2 ^ W).
  { apply Z.bits_inj'. intros j Hj. rewrite Z.testbit_mod_pow2 by lia.
    destruct (Z.ltb_spec j W); cbn [andb]; auto. }
  rewrite Hz. apply Z.mod_pos_bound. apply Z.pow_pos_nonneg; lia.
Qed.

Lemma NetworkByteOrder_in_range (T : IntType) (h : ByteLayout) (x : Z) :
  swappable T -> in_range T x -> in_range T (NetworkByteOrder T h x).
Proof.
  intros HT Hx. destruct (IsBigEndian h) eqn:Hbig.
  - destruct HT as [-> | [-> | ->]]; simpl;
      unfold NetworkByteOrder_u16, NetworkByteOrder_u32, NetworkByteOrder_u64;
      rewrite Hbig; exact Hx.
  - destruct HT as [-> | [-> | ->]]; simpl;
      (apply unsigned_range; [ reflexivity | ]);
      apply bounded_by_bits; try (simpl; lia); intros j Hj; simpl in Hj.
    + rewrite swap_u16_testbit by (auto; lia). split_ranges; reflexivity.
    + rewrite swap_u32_testbit by (auto; lia). split_ranges; reflexivity.
    + rewrite swap_u64_testbit by (auto; lia). split_ranges; reflexivity.
Qed.

(** X15.  [NetworkByteOrder] returns a value of the type of its argument,
    and on a host that is not big endian it mirrors the bytes: byte [i] of
    the result is byte [sizeof(T) - 1 - i] of the argument. *)
Theorem NetworkByteOrder_mirrors_bytes
    (T : IntType) (host : ByteLayout) (x : Z) :
  swappable T -> in_range T x ->
  in_range T (NetworkByteOrder T host x) /\
  (IsBigEndian host = false ->
   forall i, 0 <= i < bytes T ->
             byte_at (NetworkByteOrder T host x) i
             = byte_at x (bytes T - 1 - i)).
Proof.
  intros HT Hx. split.
  - now apply NetworkByteOrder_in_range.
  - intros Hh i Hi. now apply NetworkByteOrder_byte.
Qed.

Lemma NetworkByteOrder_mirrors_bytes_witness :
  swappable U32 /\ in_range U32 0x12345678 /\
  in_range U32 (NetworkByteOrder U32 (layout_of Little_Endian) 0x12345678) /\
  (IsBigEndian (layout_of Little_Endian) = false ->
   forall i, 0 <= i < bytes U32 ->
             byte_at (NetworkByteOrder U32 (layout_of Little_Endian) 0x12345678) i
             = byte_at 0x12345678 (bytes U32 - 1 - i)).
Proof.
  assert (HT : swappable U32) by (right; left; reflexivity).
  assert (Hr : in_range U32 0x12345678)
    by (unfold in_range, numeric_limits_min, numeric_limits_max; simpl; lia).
  split; [ exact HT | ]. split; [ exact Hr | ].
  exact (NetworkByteOrder_mirrors_bytes U32 (layout_of Little_Endian)
           0x12345678 HT Hr).
Defined.

(** Two values of [n] bytes with the same bytes are equal. *)
Lemma bytes_ext (n x y : Z) :
  0 <= n -> 0 <= x < 2 ^ (8 * n) -> 0 <= y < 2 ^ (8 * n) ->
  (forall i, 0 <= i < n -> byte_at x i = byte_at y i) -> x = y.
Proof.
  intros Hn Hx Hy Hbytes. apply Z.bits_inj'. intros j Hj.
  destruct (Z.ltb_spec j (8 * n)) as [Hlt | Hge].
  - pose proof (Z.div_mod j 8 ltac:(lia)) as Hdm.
    pose proof (Z.mod_pos_bound j 8 ltac:(lia)) as Hmb.
    assert (Hq : 0 <= j / 8 < n).
    { split; [ apply Z.div_pos; lia | apply Z.div_lt_upper_bound; lia ]. }
    pose proof (byte_at_testbit x (j / 8) (j mod 8) ltac:(lia) ltac:(lia)) as Bx.
    pose proof (byte_at_testbit y (j / 8) (j mod 8) ltac:(lia) ltac:(lia)) as By.
    rewrite (Hbytes (j / 8) Hq) in Bx. rewrite Bx in By.
    destruct (Z.ltb_spec (j mod 8) 8); [ | lia ]. cbn [andb] in By.
    replace (j mod 8 + 8 * (j / 8)) with j in By by lia.
    exact By.
  - rewrite !(testbit_above (8 * n)) by (auto; lia). reflexivity.
Qed.

(** X16.  On a host that is not big endian, [NetworkByteOrder] returns its
    argument unchanged exactly when the bytes of the argument read the same
    in both directions. *)
Theorem NetworkByteOrder_fixed_iff_palindrome
    (T : IntType) (host : ByteLayout) (x : Z) :
  swappable T -> in_range T x -> IsBigEndian host = false ->
  (NetworkByteOrder T host x = x <->
   forall i, 0 <= i < bytes T -> byte_at x i = byte_at x (bytes T - 1 - i)).
Proof.
  intros HT Hx Hh. split.
  - intros Heq i Hi. rewrite <- Heq at 1. now apply NetworkByteOrder_byte.
  - intros Hpal.
    pose proof (NetworkByteOrder_in_range T host x HT Hx) as Hy.
    assert (H8 : 8 * bytes T = bits T)
      by (destruct HT as [-> | [-> | ->]]; reflexivity).
    assert (Hu : is_signed T = false)
      by (destruct HT as [-> | [-> | ->]]; reflexivity).
    apply unsigned_range in Hx; auto. apply unsigned_range in Hy; auto.
    apply (bytes_ext (bytes T)).
    + destruct HT as [-> | [-> | ->]]; vm_compute; congruence.
    + now rewrite H8.
    + now rewrite H8.
    + intros i Hi. rewrite NetworkByteOrder_byte by assumption.
      symmetry. now apply Hpal.
Qed.

Lemma NetworkByteOrder_fixed_iff_palindrome_witness :
  swappable U32 /\ in_range U32 0x01020201 /\
  IsBigEndian (layout_of Little_Endian) = false /\
  (NetworkByteOrder U32 (layout_of Little_Endian) 0x01020201 = 0x01020201 <->
   forall i, 0 <= i < bytes U32 ->
             byte_at 0x01020201 i = byte_at 0x01020201 (bytes U32 - 1 - i)).
Proof.
  assert (HT : swappable U32) by (right; left; reflexivity).
  assert (Hr : in_range U32 0x01020201)
    by (unfold in_range, numeric_limits_min, numeric_limits_max; simpl; lia).
  split; [ exact HT | ]. split; [ exact Hr | ]. split; [ reflexivity | ].
  exact (NetworkByteOrder_fixed_iff_palindrome U32 (layout_of Little_Endian)
           0x01020201 HT Hr eq_refl).
Defined.

(** X17.  What a host stores for the result of the 32-bit
    [NetworkByteOrder]: on big-endian and little-endian hosts the octets of
    the argument in network order, most significant first; on a PDP or
    Honeywell host, where the function swaps as on a little-endian one,
    another order. *)
Theorem NetworkByteOrder_memory_image (e : EndianClassification) (x : Z) :
  store_octets (layout_of e) (NetworkByteOrder U32 (layout_of e) x) =
  match e with
  | Big_Endian | Little_Endian => network_octets x
  | PDP_Endian => [byte_at x 1; byte_at x 0; byte_at x 3; byte_at x 2]
  | Honeywell_Endian => [byte_at x 2; byte_at x 3; byte_at x 0; byte_at x 1]
  end.
Proof.
  destruct e; unfold store_octets, network_octets; cbn [layout_of map];
    try reflexivity;
    rewrite !(swap_u32_byte _ x) by (try reflexivity; lia);
    reflexivity.
Qed.

Lemma byte_order_cases (h : ByteLayout) :
  byte_order h ->
  exists a b c d,
    h = [a; b; c; d] /\
    (a = 0 \/ a = 1 \/ a = 2 \/ a = 3) /\
    (b = 0 \/ b = 1 \/ b = 2 \/ b = 3) /\
    (c = 0 \/ c = 1 \/ c = 2 \/ c = 3) /\
    (d = 0 \/ d = 1 \/ d = 2 \/ d = 3) /\
    a <> b /\ a <> c /\ a <> d /\ b <> c /\ b <> d /\ c <> d.
Proof.
  intros (a & b & c & d & -> & Ha & Hb & Hc & Hd & Hne).
  exists a, b, c, d. repeat split; try tauto; lia.
Qed.

(** X18.  Among all the byte orderings of a 32-bit object, the value
    [GetMachineEndian] returns equals an enumerator exactly on the host
    with that ordering; so [IsBigEndian] and [IsLittleEndian] hold on the
    big-endian and the little-endian host only, and any other ordering than
    the four classical ones gives a value outside the enumeration. *)
Theorem GetMachineEndian_exact (host : ByteLayout) (e : EndianClassification) :
  byte_order host ->
  (GetMachineEndian host = enumerator e <-> host = layout_of e) /\
  (IsBigEndian host = true <-> host = layout_of Big_Endian) /\
  (IsLittleEndian host = true <-> host = layout_of Little_Endian).
Proof.
  intros Hh.
  assert (Hexact : forall e', GetMachineEndian host = enumerator e' <->
                              host = layout_of e').
  { intros e'.
    destruct (byte_order_cases host Hh)
      as (a & b & c & d & -> & Ha & Hb & Hc & Hd & Hab & Hac & Had & Hbc & Hbd & Hcd).
    destruct Ha as [-> | [-> | [-> | ->]]];
      destruct Hb as [-> | [-> | [-> | ->]]]; try congruence;
      destruct Hc as [-> | [-> | [-> | ->]]]; try congruence;
      destruct Hd as [-> | [-> | [-> | ->]]]; try congruence;
      destruct e'; vm_compute; split; congruence. }
  split; [ apply Hexact | ].
  unfold IsBigEndian, IsLittleEndian. rewrite !Z.eqb_eq.
  split; apply Hexact.
Qed.

Lemma GetMachineEndian_exact_witness :
  byte_order (layout_of PDP_Endian) /\
  (GetMachineEndian (layout_of PDP_Endian) = enumerator PDP_Endian <->
   layout_of PDP_Endian = layout_of PDP_Endian) /\
  (IsBigEndian (layout_of PDP_Endian) = true <->
   layout_of PDP_Endian = layout_of Big_Endian) /\
  (IsLittleEndian (layout_of PDP_Endian) = true <->
   layout_of PDP_Endian = layout_of Little_Endian).
Proof.
  assert (Hh : byte_order (layout_of PDP_Endian)).
  { exists 2, 3, 0, 1. repeat split; try reflexivity; lia. }
  split; [ exact Hh | ].
  exact (GetMachineEndian_exact (layout_of PDP_Endian) PDP_Endian Hh).
Defined.
